(** * Shared trial study of the parallel hyper-parameter search tutorial

    The notebook [4a.2-Local_parallelized_hp_search.ipynb] defines
    [optimize_study] (an ask / evaluate / tell loop against an Optuna study
    kept in a journal file) and a driver loop that runs it in 1, 2, 4 and 8
    processes through [joblib.Parallel], timing every batch.

    The study, its journal and the ask/tell protocol belong to Optuna and
    are not part of the repository; they are modelled from the
    specification and marked as such.  [optimize_study], the driver loop
    and the notebook's constants are transcribed from the notebook. *)

From Stdlib Require Import ZArith Lia.
From stdpp Require Import base decidable option list strings.

Set Default Proof Using "Type".

(** ** Data model *)

(** Modelled from the spec: the status of a trial and the direction of a
    study (section 3); both are Optuna's and not in the repository. *)
Inductive Status := Running | Complete | Failed.

Inductive Direction := Minimize | Maximize.

#[global] Instance Status_eq_dec : EqDecision Status.
Proof. solve_decision. Defined.

(** A score as the objective returns it ([np.mean(losses)], a float).  The
    float itself is kept abstract: the study only compares two scores and asks
    whether a score signals an error (spec section 4.2: "if [value] signals
    an error"; for Optuna, a NaN). *)
Class Score (Value : Type) := {
  score_eq_dec :: EqDecision Value;
  signals_error : Value → bool
}.

(** Modelled from the spec: the Trial record of the study (section 3); Optuna's
    own trial class is not in the repository. *)
Record Trial (Params Value : Type) := mkTrial {
  id : nat;
  parameters : Params;
  status : Status;
  value : option Value
}.
Arguments mkTrial {_ _} _ _ _ _.
Arguments id {_ _} _.
Arguments parameters {_ _} _.
Arguments status {_ _} _.
Arguments value {_ _} _.

(** Modelled from the spec: the journal events (section 3).  The constructor
    is the event kind, its arguments the payload. *)
Inductive JournalOp (Params Value : Type) :=
| TrialCreated (i : nat) (p : Params)
| TrialCompleted (i : nat) (v : Value)
| TrialFailed (i : nat) (v : Value).
Arguments TrialCreated {_ _} _ _.
Arguments TrialCompleted {_ _} _ _.
Arguments TrialFailed {_ _} _ _.

(** Modelled from the spec: a journal event with its sequence number. *)
Record Event (Params Value : Type) := mkEvent {
  sequence_number : nat;
  op : JournalOp Params Value
}.
Arguments mkEvent {_ _} _ _.
Arguments sequence_number {_ _} _.
Arguments op {_ _} _.

(** The content of the journal file: the events in append order. *)
Abbreviation Journal Params Value := (list (Event Params Value)).

(** [JournalStorage(JournalFileStorage(log_name))]: the storage handle is the
    path of its journal file. *)
Inductive JournalFileStorage := mkJournalFileStorage (file_path : string).

Inductive JournalStorage := mkJournalStorage (backend : JournalFileStorage).

Definition file_path (st : JournalStorage) : string :=
  match st with mkJournalStorage (mkJournalFileStorage p) => p end.

(** Modelled from the spec: the Study handle of one process (sections 3 and
    4.2): the study's name and direction, the storage it is bound to, its
    sampler, and the in-memory projection of the journal ([trials]) together
    with the number of journal events already replayed into it ([synced]). *)
Record Study (Params Value : Type) := mkStudy {
  name : string;
  direction : Direction;
  handle_storage : JournalStorage;
  handle_sampler : nat → Params;
  synced : nat;
  trials : list (Trial Params Value)
}.
Arguments mkStudy {_ _} _ _ _ _ _ _.
Arguments name {_ _} _.
Arguments direction {_ _} _.
Arguments handle_storage {_ _} _.
Arguments handle_sampler {_ _} _.
Arguments synced {_ _} _.
Arguments trials {_ _} _.

(** Python exceptions that can leave [optimize_study] or the driver. *)
Inductive Exception :=
| ObjectiveEvaluationError (msg : string)
| UnknownTrialError
| DuplicateTellError
| ZeroDivisionError.

#[global] Instance Exception_eq_dec : EqDecision Exception.
Proof. solve_decision. Defined.

(** What a call of the objective does: return a score or raise. *)
Inductive Outcome (Value : Type) :=
| Returns (v : Value)
| Raises (e : Exception).
Arguments Returns {_} _.
Arguments Raises {_} _.

(** The calls a worker makes, in order. *)
Inductive Call (Params Value : Type) :=
| CallAsk (t : Trial Params Value)
| CallObjective (t : Trial Params Value)
| CallTell (t : Trial Params Value) (v : Value).
Arguments CallAsk {_ _} _.
Arguments CallObjective {_ _} _.
Arguments CallTell {_ _} _ _.

Section Model.
Context {Params Value : Type} `{!Score Value}.

Abbreviation Trial := (Trial Params Value).
Abbreviation JournalOp := (JournalOp Params Value).
Abbreviation Event := (Event Params Value).
Abbreviation Journal := (Journal Params Value).
Abbreviation Study := (Study Params Value).

(** ** Journal store (section 4.1) *)

(** Modelled from the spec: [append(event) -> sequence_number].  The store
    serialises concurrent appends, so an append is one atomic step on the
    file's content; the sequence number is the event's position.  A failing
    file system ([IOFailure]) is not modelled. *)
Definition append (o : JournalOp) (j : Journal) : Journal * nat :=
  (j ++ [mkEvent (length j) o], length j).

(** Modelled from the spec: [read_all() -> ordered sequence of events]. *)
Definition read_all (j : Journal) : list Event := j.

(** ** Study projection and the ask/tell protocol (section 4.2) *)

(** Modelled from the spec: a trial is created in status [Running], without
    a value. *)
Definition new_trial (i : nat) (p : Params) : Trial :=
  mkTrial i p Running None.

(** Modelled from the spec: a trial is immutable once finalized; it leaves
    [Running] once and is not changed again. *)
Definition finish_trial (i : nat) (st : Status) (v : option Value)
    (t : Trial) : Trial :=
  if decide (id t = i ∧ status t = Running)
  then mkTrial (id t) (parameters t) st v
  else t.

(** Modelled from the spec: replaying one journal event into the
    projection. *)
Definition apply_event (ts : list Trial) (e : Event) : list Trial :=
  match op e with
  | TrialCreated i p => ts ++ [new_trial i p]
  | TrialCompleted i v => finish_trial i Complete (Some v) <$> ts
  | TrialFailed i v => finish_trial i Failed None <$> ts
  end.

(** Modelled from the spec: "replaying all events in sequence order
    reconstructs the Study". *)
Definition replay (evs : list Event) : list Trial :=
  fold_left apply_event evs [].

(** Modelled from the spec: [open(name, direction)], the notebook's
    [optuna.create_study(..., load_if_exists=True)]: an existing journal is
    replayed, a missing one is the empty journal. *)
Definition create_study (study_name : string) (dir : Direction)
    (st : JournalStorage) (smp : nat → Params) (j : Journal) : Study :=
  mkStudy study_name dir st smp (length j) (replay (read_all j)).

(** Modelled from the spec: a handle rebuilds its state by replay and never
    trusts its cache across processes; it is brought up to date by replaying
    the events appended since its last look at the journal. *)
Definition sync (s : Study) (j : Journal) : Study :=
  mkStudy (name s) (direction s) (handle_storage s) (handle_sampler s)
    (length j)
    (fold_left apply_event (drop (synced s) (read_all j)) (trials s)).

(** Modelled from the spec: the next trial id of an up-to-date handle; ids
    are assigned over the whole journal. *)
Definition next_trial_id (s : Study) : nat := length (trials s).

(** Modelled from the spec: [ask() -> Trial].  Under the store's lock the
    handle catches up with the journal, reserves the next id by appending a
    [TrialCreated] event carrying the sampled parameters, and returns the
    trial in status [Running]. *)
Definition ask (s : Study) (j : Journal) : Trial * Study * Journal :=
  let s1 := sync s j in
  let i := next_trial_id s1 in
  let p := handle_sampler s1 i in
  let '(j1, _) := append (TrialCreated i p) j in
  (new_trial i p, sync s1 j1, j1).

(** Modelled from the spec: the trial of the projection with id [i]. *)
Definition find_trial (i : nat) (ts : list Trial) : option Trial :=
  head (filter (λ t, id t = i) ts).

(** Modelled from the spec: the value an event records for trial [i], if it
    is a completion record ([TrialCompleted] or [TrialFailed]) of that
    trial. *)
Definition told_value (i : nat) (e : Event) : option Value :=
  match op e with
  | TrialCreated _ _ => None
  | TrialCompleted i' v | TrialFailed i' v =>
      if decide (i' = i) then Some v else None
  end.

(** Modelled from the spec: the value of the completion record of trial [i]
    in the journal (the first one, should there be several). *)
Definition completion_record (i : nat) (j : Journal) : option Value :=
  head (omap (told_value i) (read_all j)).

(** Modelled from the spec: [tell(trial, value)].  Unknown ids are rejected;
    a repeated tell with the recorded value is a no-op, with another value
    it is rejected; otherwise one [TrialCompleted] event is appended
    ([TrialFailed] when the value signals an error). *)
Definition tell (s : Study) (j : Journal) (t : Trial) (v : Value)
    : (Exception + Study) * Journal :=
  let s1 := sync s j in
  match find_trial (id t) (trials s1) with
  | None => (inl UnknownTrialError, j)
  | Some tr =>
      match status tr with
      | Running =>
          let o := if signals_error v then TrialFailed (id t) v
                   else TrialCompleted (id t) v in
          let '(j1, _) := append o j in
          (inr (sync s1 j1), j1)
      | Complete | Failed =>
          if decide (completion_record (id t) j = Some v)
          then (inr s1, j)
          else (inl DuplicateTellError, j)
      end
  end.

(** ** Reading a journal *)

Definition created_id (e : Event) : option nat :=
  match op e with
  | TrialCreated i _ => Some i
  | TrialCompleted _ _ | TrialFailed _ _ => None
  end.

Definition finished_id (e : Event) : option nat :=
  match op e with
  | TrialCreated _ _ => None
  | TrialCompleted i _ | TrialFailed i _ => Some i
  end.

(** The trial ids handed out, in journal order. *)
Definition created_ids (j : Journal) : list nat := omap created_id j.

(** The trial ids with a completion record, in journal order. *)
Definition finished_ids (j : Journal) : list nat := omap finished_id j.

Definition n_created (j : Journal) : nat := length (created_ids j).

(** The completion event [tell] writes. *)
Definition completion (failed : bool) (i : nat) (v : Value) : JournalOp :=
  if failed then TrialFailed i v else TrialCompleted i v.

(** The journals the protocol can produce: the empty one, one more trial
    created under the next id, or one more completion of a trial that was
    created and is not finished yet. *)
Inductive journal_wf : Journal → Prop :=
| wf_empty : journal_wf []
| wf_created j p :
    journal_wf j →
    journal_wf (j ++ [mkEvent (length j) (TrialCreated (n_created j) p)])
| wf_finished j failed i v :
    journal_wf j →
    i ∈ created_ids j →
    i ∉ finished_ids j →
    journal_wf (j ++ [mkEvent (length j) (completion failed i v)]).

(** A handle is consistent with the journal when its projection is the
    replay of the prefix it has read. *)
Definition handle_ok (s : Study) (j : Journal) : Prop :=
  synced s ≤ length j ∧ trials s = replay (take (synced s) j).

(** How many trials of a projection have a given status. *)
Definition n_status (st : Status) (ts : list Trial) : nat :=
  length (filter (λ t, status t = st) ts).


(** How many completion records the journal holds for trial [i]. *)
Definition n_completions (i : nat) (j : Journal) : nat :=
  length (filter (λ i', i' = i) (finished_ids j)).

End Model.

(** ** The notebook's constants (cell 6 and cell 9) *)

Definition nb_trials : nat := 32.

Definition study_name : string := "optuna_tutorial".

(** [f"optuna-journal_{study_name}.log"] as a function of the name. *)
Definition log_name_of (study_name : string) : string :=
  "optuna-journal_" +:+ study_name +:+ ".log".

Definition log_name : string := log_name_of study_name.

Definition storage : JournalStorage :=
  mkJournalStorage (mkJournalFileStorage log_name).

Definition n_processes : list nat := [1; 2; 4; 8].

(** ** The worker: [optimize_study] (cell 7) *)

(** What one call of [optimize_study] did: its calls in order, the exception
    that left it (if any) and the journal afterwards. *)
Record Run (Params Value : Type) := mkRun {
  run_calls : list (Call Params Value);
  run_raised : option Exception;
  run_journal : Journal Params Value
}.
Arguments mkRun {_ _} _ _ _.
Arguments run_calls {_ _} _.
Arguments run_raised {_ _} _.
Arguments run_journal {_ _} _.

(** Where a worker process stands.  [Spawned n]: [optimize_study(n)] was
    submitted and has not opened its study yet.  [Asking s n]: at the head of
    the [for] loop with [n] iterations left.  [Telling s n t]: [study.ask()]
    returned [t]; [objective(t)] and [study.tell] come next, then [n] more
    iterations.  [Returned] and [Raised e]: the call is over. *)
Inductive Pc (Params Value : Type) :=
| Spawned (n_trials : nat)
| Asking (s : Study Params Value) (remaining : nat)
| Telling (s : Study Params Value) (remaining : nat) (t : Trial Params Value)
| Returned
| Raised (e : Exception).
Arguments Spawned {_ _} _.
Arguments Asking {_ _} _ _.
Arguments Telling {_ _} _ _ _.
Arguments Returned {_ _}.
Arguments Raised {_ _} _.

Record Worker (Params Value : Type) := mkWorker {
  pc : Pc Params Value;
  calls : list (Call Params Value)
}.
Arguments mkWorker {_ _} _ _.
Arguments pc {_ _} _.
Arguments calls {_ _} _.

(** The processes of one [joblib.Parallel] call and the journal file they
    share. *)
Record System (Params Value : Type) := mkSystem {
  workers : list (Worker Params Value);
  journal : Journal Params Value
}.
Arguments mkSystem {_ _} _ _.
Arguments workers {_ _} _.
Arguments journal {_ _} _.

(** The lines the driver prints.  [DoneIn d] stands for
    [f"Done in {str(datetime.timedelta(seconds=d))}"]. *)
Inductive Line :=
| Blank
| OptimizationWith (n_process : nat)
| DoneIn (elapsed : Z).

#[global] Instance Line_eq_dec : EqDecision Line.
Proof. solve_decision. Defined.

(** The state of the driver cell: what was printed, the [times] list, how
    often [time.time()] was read, and the journal file. *)
Record Driver (Params Value : Type) := mkDriver {
  stdout : list Line;
  times : list Z;
  clock_reads : nat;
  journal_file : Journal Params Value
}.
Arguments mkDriver {_ _} _ _ _ _.
Arguments stdout {_ _} _.
Arguments times {_ _} _.
Arguments clock_reads {_ _} _.
Arguments journal_file {_ _} _.

Section Notebook.
Context {Params Value : Type} `{!Score Value}.

Abbreviation Trial := (Trial Params Value).
Abbreviation Journal := (Journal Params Value).
Abbreviation Study := (Study Params Value).
Abbreviation Call := (Call Params Value).
Abbreviation Run := (Run Params Value).
Abbreviation Worker := (Worker Params Value).
Abbreviation System := (System Params Value).
Abbreviation Driver := (Driver Params Value).

(** The notebook's global [objective] (cell 5), kept abstract: called on a
    trial, it returns a score or raises.  (Its [trial.suggest_float] draws
    are the parameters that the modelled [ask] has the sampler draw.) *)
Variable objective : Trial → Outcome Value.

(** [optuna.samplers.RandomSampler()]: the parameters drawn for each id; any
    sequence of draws is one such function. *)
Variable RandomSampler : nat → Params.

(** The body of [for i in range(n_trials)], [n] iterations left.  An
    exception of [objective] or [study.tell] leaves the loop. *)
Fixpoint trial_loop (n : nat) (study : Study) (j : Journal) : Run :=
  match n with
  | 0 => mkRun [] None j
  | S n' =>
      let '(trial, study1, j1) := ask study j in
      match objective trial with
      | Raises e => mkRun [CallAsk trial; CallObjective trial] (Some e) j1
      | Returns v =>
          match tell study1 j1 trial v with
          | (inl e, j2) =>
              mkRun [CallAsk trial; CallObjective trial; CallTell trial v]
                (Some e) j2
          | (inr study2, j2) =>
              let r := trial_loop n' study2 j2 in
              mkRun (CallAsk trial :: CallObjective trial
                       :: CallTell trial v :: run_calls r)
                (run_raised r) (run_journal r)
          end
      end
  end.

(** [study = optuna.create_study(study_name='paralellization_tutorial',
    direction='minimize', storage=storage, sampler=..., load_if_exists=True)] *)
Definition opened_study (j : Journal) : Study :=
  create_study "paralellization_tutorial" Minimize storage RandomSampler j.

Definition optimize_study (n_trials : nat) (j : Journal) : Run :=
  let study := opened_study j in
  trial_loop n_trials study j.

(** *** The same worker, one atomic step at a time

    Between two accesses to the journal another process may append, so for
    the parallel runs the loop is cut at its journal accesses: opening the
    study, [study.ask()], and [objective(trial)] followed by
    [study.tell(...)] (the objective does not touch the journal). *)
Definition worker_step (w : Worker) (j : Journal) : Worker * Journal :=
  match pc w with
  | Spawned n =>
      let study := opened_study j in
      (mkWorker (Asking study n) (calls w), j)
  | Asking s 0 => (mkWorker Returned (calls w), j)
  | Asking s (S n) =>
      let '(trial, s1, j1) := ask s j in
      (mkWorker (Telling s1 n trial) (calls w ++ [CallAsk trial]), j1)
  | Telling s n trial =>
      match objective trial with
      | Raises e =>
          (mkWorker (Raised e) (calls w ++ [CallObjective trial]), j)
      | Returns v =>
          match tell s j trial v with
          | (inl e, j1) =>
              (mkWorker (Raised e)
                 (calls w ++ [CallObjective trial; CallTell trial v]), j1)
          | (inr s1, j1) =>
              (mkWorker (Asking s1 n)
                 (calls w ++ [CallObjective trial; CallTell trial v]), j1)
          end
      end
  | Returned | Raised _ => (w, j)
  end.

(** Process [pid] takes its next step; a process that does not exist or has
    finished leaves the system as it is. *)
Definition sys_step (pid : nat) (sys : System) : System :=
  match workers sys !! pid with
  | None => sys
  | Some w =>
      let '(w1, j1) := worker_step w (journal sys) in
      mkSystem (<[pid := w1]> (workers sys)) j1
  end.

(** A schedule names the process that moves next. *)
Definition run_schedule (sched : list nat) (sys : System) : System :=
  fold_left (λ s pid, sys_step pid s) sched sys.

(** The steps a worker still has to take. *)
Definition steps_left (p : Pc Params Value) : nat :=
  match p with
  | Spawned n => 2 * n + 2
  | Asking _ n => 2 * n + 1
  | Telling _ n _ => 2 * n + 2
  | Returned | Raised _ => 0
  end.

Definition run_to_end (pid : nat) (sys : System) : System :=
  match workers sys !! pid with
  | None => sys
  | Some w => Nat.iter (steps_left (pc w)) (sys_step pid) sys
  end.

(** [joblib.Parallel] blocks until every task is over: the processes the
    schedule left unfinished run to their end. *)
Definition join (sys : System) : System :=
  fold_left (λ s pid, run_to_end pid s) (seq 0 (length (workers sys))) sys.

Definition spawn (n_trials : nat) : Worker := mkWorker (Spawned n_trials) [].

(** [joblib.Parallel(n_jobs=n)(joblib.delayed(optimize_study)(args) for args
    in args_list)]: one process per argument, interleaved as the schedule
    says, all joined. *)
Definition Parallel (sched : list nat) (args_list : list nat) (j : Journal)
    : System :=
  join (run_schedule sched (mkSystem (spawn <$> args_list) j)).

Definition raised_by (w : Worker) : option Exception :=
  match pc w with Raised e => Some e | _ => None end.

(** [joblib] raises in the parent the exception of a failed task. *)
Definition first_exception (sys : System) : option Exception :=
  head (omap raised_by (workers sys)).

(** ** The driver (cell 9) *)

(** [time.time()] is read from [clock], indexed by the number of earlier
    readings. *)
Variable clock : nat → Z.

(** The body of [for n_process in n_processes], which the specification
    calls [run_parallel(total_trials, n_processes, objective)]. *)
Definition run_parallel (sched : list nat) (total_trials n_process : nat)
    (d : Driver) : Driver * option Exception :=
  let out := stdout d ++ [Blank; OptimizationWith n_process] in
  let start := clock (clock_reads d) in
  match n_process with
  | 0 =>
      (mkDriver out (times d) (S (clock_reads d)) (journal_file d),
       Some ZeroDivisionError)
  | S _ =>
      let n_trials_per_process := total_trials `div` n_process in
      let args_list := replicate n_process n_trials_per_process in
      let sys := Parallel sched args_list (journal_file d) in
      match first_exception sys with
      | Some e =>
          (mkDriver out (times d) (S (clock_reads d)) (journal sys), Some e)
      | None =>
          let end_ := clock (S (clock_reads d)) in
          (mkDriver (out ++ [DoneIn (end_ - start)])
             (times d ++ [(end_ - start)%Z])
             (S (S (clock_reads d))) (journal sys), None)
      end
  end.

(** The [for] loop; [scheds k] is the schedule of the [k]-th batch. *)
Fixpoint driver_loop (scheds : nat → list nat) (k : nat) (ns : list nat)
    (d : Driver) : Driver * option Exception :=
  match ns with
  | [] => (d, None)
  | n_process :: rest =>
      match run_parallel (scheds k) nb_trials n_process d with
      | (d1, Some e) => (d1, Some e)
      | (d1, None) => driver_loop scheds (S k) rest d1
      end
  end.

Definition driver (scheds : nat → list nat) (j : Journal)
    : Driver * option Exception :=
  driver_loop scheds 0 n_processes (mkDriver [] [] 0 j).


(** ** Reading a worker's calls *)

Definition asked_id (c : Call) : option nat :=
  match c with CallAsk t => Some (id t) | _ => None end.

(** The ids this worker was handed by [study.ask()]. *)
Definition asked_ids (cs : list Call) : list nat := omap asked_id cs.

(** The ids asked and not yet told, after the calls [cs]. *)
Definition outstanding (cs : list Call) : list nat :=
  fold_left (λ acc c,
    match c with
    | CallAsk t => acc ++ [id t]
    | CallObjective _ => acc
    | CallTell t _ => filter (λ i, i ≠ id t) acc
    end) cs [].

(** The ask / objective / tell cycle as an automaton over the calls. *)
Inductive Phase := Idle | Asked (i : nat) | Evaluated (i : nat) | OutOfOrder.

Definition phase_step (ph : Phase) (c : Call) : Phase :=
  match ph, c with
  | Idle, CallAsk t => Asked (id t)
  | Asked i, CallObjective t =>
      if decide (id t = i) then Evaluated i else OutOfOrder
  | Evaluated i, CallTell t _ =>
      if decide (id t = i) then Idle else OutOfOrder
  | _, _ => OutOfOrder
  end.

Definition phase_of (cs : list Call) : Phase := fold_left phase_step cs Idle.

(** The trial a process holds between its ask and its tell. *)
Definition held (p : Pc Params Value) : option nat :=
  match p with Telling _ _ t => Some (id t) | _ => None end.

Definition asks_left (p : Pc Params Value) : nat :=
  match p with
  | Spawned n | Asking _ n | Telling _ n _ => n
  | Returned | Raised _ => 0
  end.

Definition pc_ok (j : Journal) (p : Pc Params Value) : Prop :=
  match p with
  | Asking s _ => handle_ok s j
  | Telling s _ t =>
      handle_ok s j ∧ id t ∈ created_ids j ∧ id t ∉ finished_ids j
  | Spawned _ | Returned | Raised _ => True
  end.

(** The invariant of a parallel run: the journal is one the protocol
    produces, every handle is consistent with it, a held trial is created and
    unfinished, and no two processes hold the same trial. *)
Definition sys_inv (sys : System) : Prop :=
  journal_wf (journal sys)
  ∧ Forall (λ w, pc_ok (journal sys) (pc w)) (workers sys)
  ∧ ∀ p q w w' i,
      workers sys !! p = Some w → workers sys !! q = Some w' →
      held (pc w) = Some i → held (pc w') = Some i → p = q.

(** The steps [worker_step] takes in a system that satisfies the
    invariant: there [study.tell] finds the held trial unfinished and does
    not raise. *)
Inductive worker_steps (w : Worker) (j : Journal)
    : Worker → Journal → Prop :=
| step_open n s :
    pc w = Spawned n → handle_ok s j →
    handle_sampler s = RandomSampler →
    worker_steps w j (mkWorker (Asking s n) (calls w)) j
| step_return s :
    pc w = Asking s 0 →
    worker_steps w j (mkWorker Returned (calls w)) j
| step_ask s n s1 p :
    pc w = Asking s (S n) →
    p = handle_sampler s (n_created j) →
    handle_ok s1 (j ++ [mkEvent (length j) (TrialCreated (n_created j) p)]) →
    handle_sampler s1 = handle_sampler s →
    worker_steps w j
      (mkWorker (Telling s1 n (new_trial (n_created j) p))
         (calls w ++ [CallAsk (new_trial (n_created j) p)]))
      (j ++ [mkEvent (length j) (TrialCreated (n_created j) p)])
| step_raise s n t e :
    pc w = Telling s n t → objective t = Raises e →
    worker_steps w j
      (mkWorker (Raised e) (calls w ++ [CallObjective t])) j
| step_tell s n t v s1 :
    pc w = Telling s n t → objective t = Returns v →
    id t ∈ created_ids j → id t ∉ finished_ids j →
    handle_ok s1
      (j ++ [mkEvent (length j) (completion (signals_error v) (id t) v)]) →
    handle_sampler s1 = handle_sampler s →
    worker_steps w j
      (mkWorker (Asking s1 n)
         (calls w ++ [CallObjective t; CallTell t v]))
      (j ++ [mkEvent (length j) (completion (signals_error v) (id t) v)])
| step_stay :
    steps_left (pc w) = 0 → worker_steps w j w j.

(** The calls of one full iteration on trial [t] with score [v]. *)
Definition iteration (tv : Trial * Value) : list Call :=
  [CallAsk tv.1; CallObjective tv.1; CallTell tv.1 tv.2].

(** The trial a handle with the notebook's sampler is handed under id [i]. *)
Definition trial_with_id (i : nat) : Trial := new_trial i (RandomSampler i).

(** [r] is a run of exactly [n] iterations, each one ask, one evaluation of
    the objective on the asked trial and one tell of the returned value for
    that trial, in this order, and nothing else. *)
Definition runs_iterations (n : nat) (r : Run) : Prop :=
  ∃ steps : list (Trial * Value),
    length steps = n
    ∧ Forall (λ tv, objective tv.1 = Returns tv.2) steps
    ∧ run_calls r = steps ≫= iteration.

(** What a worker's calls look like at each of its program points. *)
Definition calls_ok (w : Worker) : Prop :=
  match pc w with
  | Spawned _ | Asking _ _ | Returned =>
      phase_of (calls w) = Idle ∧ outstanding (calls w) = []
  | Telling _ _ t =>
      phase_of (calls w) = Asked (id t) ∧ outstanding (calls w) = [id t]
  | Raised _ =>
      ∃ i, phase_of (calls w) = Evaluated i ∧ outstanding (calls w) = [i]
  end.

(** Every id a process was handed is below the next id, no process was handed
    an id twice, and no two processes were handed the same id. *)
Definition asks_unique (sys : System) : Prop :=
  (∀ q w i, workers sys !! q = Some w → i ∈ asked_ids (calls w) →
            i ∈ created_ids (journal sys))
  ∧ (∀ q w, workers sys !! q = Some w → NoDup (asked_ids (calls w)))
  ∧ (∀ p q w w' i,
       workers sys !! p = Some w → workers sys !! q = Some w' →
       i ∈ asked_ids (calls w) → i ∈ asked_ids (calls w') → p = q).

(** Every trial a process asked is finished in the journal, except the one
    it is holding. *)
Definition asked_finished (sys : System) : Prop :=
  ∀ q w i, workers sys !! q = Some w → i ∈ asked_ids (calls w) →
           i ∈ finished_ids (journal sys) ∨ outstanding (calls w) = [i].

(** The invariant of a parallel run, with what it says about the calls. *)
Definition run_inv (sys : System) : Prop :=
  sys_inv sys ∧ Forall calls_ok (workers sys)
  ∧ asks_unique sys ∧ asked_finished sys.

(** Every trial the journal gained since it was [j0] was handed to one of
    the processes. *)
Definition asks_cover (j0 : Journal) (sys : System) : Prop :=
  ∀ i, i ∈ created_ids (journal sys) →
       i ∈ created_ids j0
       ∨ ∃ q w, workers sys !! q = Some w ∧ i ∈ asked_ids (calls w).

(** The trial ids of a system started on the journal [j0] are pairwise
    distinct: in the journal, in the study replayed from it, and among the
    ids handed to the processes; the journal assigns them in increasing
    order, and every id it assigned since [j0] went to exactly one
    process. *)
Definition ids_unique (j0 : Journal) (sys : System) : Prop :=
  NoDup (created_ids (journal sys))
  ∧ created_ids (journal sys) = seq 0 (n_created (journal sys))
  ∧ NoDup (id <$> replay (journal sys))
  ∧ asks_unique sys
  ∧ asks_cover j0 sys.

(** The asks the processes of a system have made. *)
Definition total_asked (ws : list Worker) : nat :=
  sum_list_with (λ w, length (asked_ids (calls w))) ws.

(** A worker with a budget of [n] trials: unless it has raised, what it asked
    and what it still has to ask add up to [n]. *)
Definition budget_ok (w : Worker) (n : nat) : Prop :=
  raised_by w = None →
  length (asked_ids (calls w)) + asks_left (pc w) = n.

(** The handle of a process is bound to the notebook's one [storage]. *)
Definition shares_storage (w : Worker) : Prop :=
  match pc w with
  | Asking s _ | Telling s _ _ => handle_storage s = storage
  | Spawned _ | Returned | Raised _ => True
  end.

End Notebook.

(** ** A concrete instance, to run the model on *)

(** A loss as the notebook's objective computes it, in thousandths, or the
    NaN that [np.mean] gives for a diverged run. *)
Inductive Loss := Finite (thousandths : Z) | NaN.

#[global] Instance Loss_eq_dec : EqDecision Loss.
Proof. solve_decision. Defined.

#[global] Instance Loss_score : Score Loss :=
  {| signals_error := λ v, match v with NaN => true | Finite _ => false end |}.

(** The two sampled parameters [sr_1] and [lr_1], as the id-th draw. *)
Definition demo_sampler (i : nat) : Z * Z := (Z.of_nat i, 2 * Z.of_nat i)%Z.

(** An objective that never raises. *)
Definition steady_objective (t : Trial (Z * Z) Loss) : Outcome Loss :=
  Returns (Finite (fst (parameters t))).


(** An objective that raises where a marker condition holds: on the
    parameter sets drawn for the ids 2, 5 and 7. *)
Definition marked (t : Trial (Z * Z) Loss) : bool :=
  bool_decide (fst (parameters t) ∈ [2; 5; 7]%Z).

Definition marker_objective (t : Trial (Z * Z) Loss) : Outcome Loss :=
  if marked t then Raises (ObjectiveEvaluationError "marker")
  else Returns (Finite (fst (parameters t))).

(** A journal with one trial, created and told. *)
Definition demo_journal : Journal (Z * Z) Loss :=
  [mkEvent 0 (TrialCreated 0 (demo_sampler 0));
   mkEvent 1 (TrialCompleted 0 (Finite 5))].

Definition demo_clock (n : nat) : Z := (100 * Z.of_nat n)%Z.

(** A schedule for every batch: some interleaving, then the join. *)
Definition demo_scheds (k : nat) : list nat :=
  [0; 1; 2; 3; 3; 2; 1; 0; 5; 7; k].

(** ** Data preparation (cell 2) *)

Definition timesteps : nat := 2000.

Definition train_len : nat := 1000.

(** Python's reading of a slice bound [i] on a sequence of length [len]: a
    negative bound counts from the end, and bounds are clipped to the
    sequence. *)
Definition slice_bound (len : nat) (i : Z) : nat :=
  if (i <? 0)%Z then Z.to_nat (Z.of_nat len + i)
  else Z.to_nat i `min` len.

(** [l[start:stop]]; an omitted bound is [None]. *)
Definition slice {A} (start stop : option Z) (l : list A) : list A :=
  let lo := from_option (slice_bound (length l)) 0 start in
  let hi := from_option (slice_bound (length l)) (length l) stop in
  drop lo (take hi l).

Section Dataset.
Context {Point : Type}.

(** [X[:train_len]] *)
Definition X_train (X : list Point) : list Point :=
  slice None (Some (Z.of_nat train_len)) X.

(** [X[1 : train_len + 1]] *)
Definition y_train (X : list Point) : list Point :=
  slice (Some 1%Z) (Some (Z.of_nat train_len + 1)%Z) X.

(** [X[train_len : -1]] *)
Definition X_test (X : list Point) : list Point :=
  slice (Some (Z.of_nat train_len)) (Some (-1)%Z) X.

(** [X[train_len + 1:]] *)
Definition y_test (X : list Point) : list Point :=
  slice (Some (Z.of_nat train_len + 1)%Z) None X.

Definition dataset (X : list Point) :=
  ((X_train X, y_train X), (X_test X, y_test X)).

End Dataset.

(** ** The objective (cells 4 and 5) *)

(** The bounds of the sampled parameters are rationals: [Qmake 1 100] is
    [1e-2]. *)
Local Abbreviation Q := QArith_base.Q.
Local Abbreviation Qmake := QArith_base.Qmake.

Definition nb_seeds : nat := 3.

Section Objective.
Context {Params Float : Type}.

(** [trial.suggest_float(name, low, high, log=...)]: the value Optuna draws
    for the named parameter of the trial. *)
Variable suggest_float :
  Trial Params Float → string → Q → Q → bool → Float.

(** The body of the loop for one seed, up to the loss: a reservoir of [N]
    units built with [sr], [lr], [input_scaling=iss] and the seed, a ridge
    readout, the model fitted on [(X_train, y_train)] and run on [X_test],
    and the [nrmse] of its predictions against [y_test].  It returns the
    loss or raises. *)
Variable evaluate : Float → Float → nat → Outcome Float.

(** [np.mean] *)
Variable mean : list Float → Float.

(** [for seed in seeds: ...; losses.append(loss)] *)
Fixpoint seed_loop (seeds : list nat) (sr lr : Float) (losses : list Float)
    : Outcome (list Float) :=
  match seeds with
  | [] => Returns losses
  | seed :: rest =>
      match evaluate sr lr seed with
      | Raises e => Raises e
      | Returns loss => seed_loop rest sr lr (losses ++ [loss])
      end
  end.

Definition objective (trial : Trial Params Float) : Outcome Float :=
  let losses := [] in
  let sr := suggest_float trial "sr_1" (Qmake 1 100) (Qmake 10 1) true in
  let lr := suggest_float trial "lr_1" (Qmake 1 1000) (Qmake 1 1) true in
  match seed_loop (seq 0 nb_seeds) sr lr losses with
  | Raises e => Raises e
  | Returns losses => Returns (mean losses)
  end.

End Objective.

(** ** What the driver reports (cells 9 and 10) *)

(** The lines a batch that ends without an exception prints. *)
Definition batch_report (n_process : nat) (seconds : Z) : list Line :=
  [Blank; OptimizationWith n_process; DoneIn seconds].

(** The elapsed time of the [i]-th batch of a loop that starts after [c]
    readings of the clock, every batch reading it twice. *)
Definition elapsed_time (clock : nat → Z) (c i : nat) : Z :=
  (clock (c + 2 * i + 1)%nat - clock (c + 2 * i)%nat)%Z.

(** A journal with a trial left unfinished: trial 0 was told, trial 1 was
    asked by a process that never told it. *)
Definition orphan_journal : Journal (Z * Z) Loss :=
  demo_journal ++ [mkEvent 2 (TrialCreated 1 (demo_sampler 1))].

(** A concrete objective, to run cell 5 on: integer parameters and losses,
    an evaluation that raises for [sr = 7] with seed 1, and the integer
    mean. *)
Definition demo_suggest_float (trial : Trial (Z * Z) Z) (name : string)
    (low high : Q) (log : bool) : Z :=
  if decide (name = "sr_1") then fst (parameters trial)
  else snd (parameters trial).

Definition demo_evaluate (sr lr : Z) (seed : nat) : Outcome Z :=
  if decide (sr = 7%Z ∧ seed = 1)
  then Raises (ObjectiveEvaluationError "diverged")
  else Returns (sr + lr + Z.of_nat seed)%Z.

Definition demo_mean (losses : list Z) : Z :=
  (foldr Z.add 0 losses `div` Z.of_nat (length losses))%Z.

(** * Properties *)

(** ** The journal and its replay *)

Section Journal_facts.
Context {Params Value : Type} `{!Score Value}.
Implicit Types (j : Journal Params Value) (s : Study Params Value).
Implicit Types (t : Trial Params Value) (e : Event Params Value).
Implicit Types (ts : list (Trial Params Value)).

Lemma replay_app j evs :
  replay (j ++ evs) = fold_left apply_event evs (replay j).
Proof. unfold replay. apply fold_left_app. Qed.

Lemma replay_snoc j e : replay (j ++ [e]) = apply_event (replay j) e.
Proof. by rewrite replay_app. Qed.

Lemma created_ids_snoc j e :
  created_ids (j ++ [e]) = created_ids j ++ option_list (created_id e).
Proof.
  unfold created_ids. rewrite omap_app. simpl.
  by destruct (created_id e).
Qed.

Lemma finished_ids_snoc j e :
  finished_ids (j ++ [e]) = finished_ids j ++ option_list (finished_id e).
Proof.
  unfold finished_ids. rewrite omap_app. simpl.
  by destruct (finished_id e).
Qed.

Lemma created_id_completion n failed i v :
  created_id (mkEvent n (completion failed i v) : Event Params Value) = None.
Proof. by destruct failed. Qed.

Lemma finished_id_completion n failed i v :
  finished_id (mkEvent n (completion failed i v) : Event Params Value)
  = Some i.
Proof. by destruct failed. Qed.

Lemma id_finish_trial i st v t : id (finish_trial i st v t) = id t.
Proof. unfold finish_trial. by case_decide. Qed.

Lemma ids_apply_event ts e :
  id <$> apply_event ts e = (id <$> ts) ++ option_list (created_id e).
Proof.
  unfold apply_event, created_id. destruct (op e); simpl.
  - by rewrite fmap_app.
  - rewrite app_nil_r, <- list_fmap_compose.
    apply list_fmap_ext. intros ? t _. apply id_finish_trial.
  - rewrite app_nil_r, <- list_fmap_compose.
    apply list_fmap_ext. intros ? t _. apply id_finish_trial.
Qed.

(** The projection lists exactly the created ids, in journal order. *)
Lemma ids_replay j : id <$> replay j = created_ids j.
Proof.
  induction j as [|e j IH] using rev_ind; [done|].
  by rewrite replay_snoc, ids_apply_event, created_ids_snoc, IH.
Qed.

Lemma length_replay j : length (replay j) = n_created j.
Proof. unfold n_created. by rewrite <- ids_replay, length_fmap. Qed.

(** *** Handles *)

Lemma handle_ok_create nm dir st smp j :
  handle_ok (create_study nm dir st smp j) j.
Proof.
  unfold handle_ok, create_study, read_all. simpl.
  by rewrite firstn_all.
Qed.

Lemma sync_trials s j : handle_ok s j → trials (sync s j) = replay j.
Proof.
  intros [_ Htr]. unfold sync, read_all. simpl. rewrite Htr.
  rewrite <- replay_app. by rewrite take_drop.
Qed.

Lemma handle_ok_sync s j : handle_ok s j → handle_ok (sync s j) j.
Proof.
  intros Hok. split; [done|].
  rewrite (sync_trials _ _ Hok). simpl. by rewrite firstn_all.
Qed.

Lemma handle_ok_app s j evs : handle_ok s j → handle_ok s (j ++ evs).
Proof.
  intros [Hle Htr]. split.
  - rewrite length_app. lia.
  - by rewrite take_app_le.
Qed.

(** *** Well-formed journals *)

Lemma wf_sequence_numbers j :
  journal_wf j → sequence_number <$> j = seq 0 (length j).
Proof.
  induction 1 as [|j p _ IH|j failed i v _ IH _ _]; [done|..];
    rewrite fmap_app, length_app, seq_app, IH; simpl; done.
Qed.

Lemma wf_created_ids j : journal_wf j → created_ids j = seq 0 (n_created j).
Proof.
  induction 1 as [|j p _ IH|j failed i v _ IH _ _]; [done|..].
  - unfold n_created in *. rewrite created_ids_snoc. simpl.
    rewrite length_app, seq_app. simpl. by rewrite <- IH.
  - unfold n_created in *.
    rewrite created_ids_snoc, created_id_completion. simpl.
    by rewrite app_nil_r.
Qed.

Lemma wf_created_lt j i : journal_wf j → i ∈ created_ids j ↔ i < n_created j.
Proof.
  intros Hwf. rewrite (wf_created_ids j Hwf), elem_of_seq. lia.
Qed.

Lemma wf_NoDup_created j : journal_wf j → NoDup (created_ids j).
Proof. intros Hwf. rewrite (wf_created_ids j Hwf). apply NoDup_seq. Qed.

Lemma wf_finished_created j i :
  journal_wf j → i ∈ finished_ids j → i ∈ created_ids j.
Proof.
  induction 1 as [|j p _ IH|j failed i' v _ IH Hin Hnot]; intros Hi.
  - by apply elem_of_nil in Hi.
  - rewrite finished_ids_snoc in Hi. simpl in Hi. rewrite app_nil_r in Hi.
    rewrite created_ids_snoc. apply elem_of_app. left. by apply IH.
  - rewrite finished_ids_snoc, finished_id_completion in Hi. simpl in Hi.
    rewrite created_ids_snoc, created_id_completion. simpl.
    rewrite app_nil_r.
    apply elem_of_app in Hi as [Hi|Hi]; [by apply IH|].
    apply list_elem_of_singleton in Hi. by subst.
Qed.

Lemma wf_NoDup_finished j : journal_wf j → NoDup (finished_ids j).
Proof.
  induction 1 as [|j p _ IH|j failed i v _ IH Hin Hnot]; [constructor|..].
  - rewrite finished_ids_snoc. simpl. by rewrite app_nil_r.
  - rewrite finished_ids_snoc, finished_id_completion. simpl.
    apply NoDup_app. split; [done|]. split; [|apply NoDup_singleton].
    intros x Hx Hx'. apply list_elem_of_singleton in Hx'. by subst.
Qed.

(** In the projection of a well-formed journal the running trials are the
    ones without a completion record. *)
Lemma wf_status_running j t :
  journal_wf j → t ∈ replay j →
  status t = Running ↔ id t ∉ finished_ids j.
Proof.
  intros Hwf. revert t.
  induction Hwf as [|j p Hwf IH|j failed i v Hwf IH Hin Hnot]; intros t Ht.
  - by apply elem_of_nil in Ht.
  - rewrite replay_snoc in Ht. unfold apply_event in Ht. simpl in Ht.
    rewrite finished_ids_snoc. simpl. rewrite app_nil_r.
    apply elem_of_app in Ht as [Ht|Ht]; [by apply IH|].
    apply list_elem_of_singleton in Ht. subst t. simpl.
    split; [|done]. intros _ Hfin.
    apply (wf_finished_created _ _ Hwf), (wf_created_lt _ _ Hwf) in Hfin.
    lia.
  - rewrite finished_ids_snoc, finished_id_completion. simpl.
    rewrite replay_snoc in Ht.
    assert (∃ st vo, st ≠ Running ∧
              t ∈ finish_trial i st vo <$> replay j) as (st & vo & Hst & Ht').
    { unfold apply_event in Ht.
      destruct failed; simpl in Ht;
        [exists Failed, None|exists Complete, (Some v)]; done. }
    apply list_elem_of_fmap in Ht' as (t0 & -> & Ht0).
    specialize (IH t0 Ht0). rewrite id_finish_trial.
    unfold finish_trial. case_decide as Hc; simpl.
    + destruct Hc as [<- _]. split; [done|].
      intros Hn. exfalso. apply Hn, elem_of_app. right.
      by apply list_elem_of_singleton.
    + rewrite IH. split.
      * intros Hn Hin'. apply elem_of_app in Hin' as [?|Hin']; [done|].
        apply list_elem_of_singleton in Hin'. apply Hc. split; [done|].
        by apply IH.
      * intros Hn Hin'. apply Hn, elem_of_app. by left.
Qed.

Lemma find_trial_Some i ts t :
  find_trial i ts = Some t → t ∈ ts ∧ id t = i.
Proof.
  unfold find_trial. intros Hh.
  apply head_Some_elem_of, list_elem_of_filter in Hh. tauto.
Qed.

Lemma find_trial_None i ts : find_trial i ts = None ↔ i ∉ id <$> ts.
Proof.
  unfold find_trial. rewrite head_None. split.
  - intros Hnil Hin. apply list_elem_of_fmap in Hin as (t & -> & Ht).
    assert (t ∈ filter (λ t0, id t0 = id t) ts) as Hf
      by by apply list_elem_of_filter.
    rewrite Hnil in Hf. by apply elem_of_nil in Hf.
  - intros Hnot. destruct (filter _ ts) as [|t l] eqn:Hf; [done|].
    assert (t ∈ filter (λ t0, id t0 = i) ts) as Ht by (rewrite Hf; left).
    apply list_elem_of_filter in Ht as [<- Ht].
    exfalso. apply Hnot, list_elem_of_fmap. eauto.
Qed.

Lemma find_trial_replay j i :
  i ∈ created_ids j → ∃ t, find_trial i (replay j) = Some t.
Proof.
  intros Hin. destruct (find_trial i (replay j)) as [t|] eqn:Hf; [eauto|].
  apply find_trial_None in Hf. by rewrite ids_replay in Hf.
Qed.

(** *** Completion records *)

Lemma told_value_Some i e v :
  told_value i e = Some v → finished_id e = Some i.
Proof.
  unfold told_value, finished_id.
  destruct (op e); [done|..]; case_decide; naive_solver.
Qed.

Lemma told_value_None i e : told_value i e = None → finished_id e ≠ Some i.
Proof.
  unfold told_value, finished_id.
  destruct (op e); [done|..]; case_decide; naive_solver.
Qed.

Lemma completion_record_None i j :
  completion_record i j = None ↔ i ∉ finished_ids j.
Proof.
  unfold completion_record, finished_ids, read_all. rewrite head_None. split.
  - intros Hnil Hin. apply list_elem_of_omap in Hin as (e & He & Hfe).
    destruct (told_value i e) as [v|] eqn:Htv.
    + assert (v ∈ omap (told_value i) j) as Hv
        by (apply list_elem_of_omap; eauto).
      rewrite Hnil in Hv. by apply elem_of_nil in Hv.
    + by apply told_value_None in Htv.
  - intros Hn. destruct (omap (told_value i) j) as [|v l] eqn:Ho; [done|].
    assert (v ∈ omap (told_value i) j) as Hv by (rewrite Ho; left).
    apply list_elem_of_omap in Hv as (e & He & Htv).
    exfalso. apply Hn, list_elem_of_omap. exists e.
    eauto using told_value_Some.
Qed.

Lemma completion_record_finished i j v :
  completion_record i j = Some v → i ∈ finished_ids j.
Proof.
  intros Hc. destruct (decide (i ∈ finished_ids j)) as [|Hn]; [done|].
  apply completion_record_None in Hn. congruence.
Qed.

Lemma completion_record_app i j evs v :
  completion_record i j = Some v → completion_record i (j ++ evs) = Some v.
Proof.
  unfold completion_record, read_all. rewrite omap_app.
  by destruct (omap _ j).
Qed.

Lemma completion_record_snoc i j n failed v :
  i ∉ finished_ids j →
  completion_record i (j ++ [mkEvent n (completion failed i v)]) = Some v.
Proof.
  intros Hn. apply completion_record_None in Hn.
  unfold completion_record, read_all in *. rewrite omap_app.
  apply head_None in Hn. rewrite Hn. simpl.
  unfold told_value. destruct failed; simpl; by case_decide.
Qed.

End Journal_facts.

(** ** The ask/tell protocol on a consistent handle *)

Section Protocol_facts.
Context {Params Value : Type} `{!Score Value}.
Implicit Types (j : Journal Params Value) (s : Study Params Value).
Implicit Types (t : Trial Params Value).

Lemma sync_sampler s j : handle_sampler (sync s j) = handle_sampler s.
Proof. done. Qed.

(** [ask] appends one [TrialCreated] event under the next id. *)
Lemma ask_spec s j :
  handle_ok s j →
  let i := n_created j in
  let j1 := j ++ [mkEvent (length j) (TrialCreated i (handle_sampler s i))] in
  ∃ s1, ask s j = (new_trial i (handle_sampler s i), s1, j1)
        ∧ handle_ok s1 j1 ∧ handle_sampler s1 = handle_sampler s.
Proof.
  intros Hok i j1. exists (sync (sync s j) j1). split; [|split; [|done]].
  - unfold ask, next_trial_id, append.
    by rewrite (sync_trials _ _ Hok), length_replay.
  - apply handle_ok_sync, handle_ok_app. by apply handle_ok_sync.
Qed.

(** [tell] on a created, unfinished trial appends its completion record. *)
Lemma tell_running s j t v :
  handle_ok s j → journal_wf j →
  id t ∈ created_ids j → id t ∉ finished_ids j →
  let j1 := j ++ [mkEvent (length j) (completion (signals_error v) (id t) v)]
  in ∃ s1, tell s j t v = (inr s1, j1)
           ∧ handle_ok s1 j1 ∧ handle_sampler s1 = handle_sampler s.
Proof.
  intros Hok Hwf Hin Hnot j1. exists (sync (sync s j) j1).
  split; [|split; [|done]].
  - unfold tell. rewrite (sync_trials _ _ Hok).
    destruct (find_trial_replay j (id t) Hin) as [tr Htr]. rewrite Htr.
    apply find_trial_Some in Htr as [Htr Hid].
    rewrite <- Hid in Hnot. apply (wf_status_running _ _ Hwf Htr) in Hnot.
    rewrite Hnot. unfold append, completion.
    by destruct (signals_error v).
  - apply handle_ok_sync, handle_ok_app. by apply handle_ok_sync.
Qed.

(** [tell] on a finished trial leaves the journal alone: the recorded value
    is accepted again, any other value is rejected. *)
Lemma tell_finished s j t v v0 :
  handle_ok s j → journal_wf j →
  completion_record (id t) j = Some v0 →
  tell s j t v = if decide (v0 = v) then (inr (sync s j), j)
                 else (inl DuplicateTellError, j).
Proof.
  intros Hok Hwf Hrec. unfold tell. rewrite (sync_trials _ _ Hok).
  pose proof (completion_record_finished _ _ _ Hrec) as Hfin.
  pose proof (wf_finished_created _ _ Hwf Hfin) as Hin.
  destruct (find_trial_replay j (id t) Hin) as [tr Htr]. rewrite Htr.
  apply find_trial_Some in Htr as [Htr Hid].
  assert (status tr ≠ Running) as Hst.
  { intros Hrun. apply (wf_status_running _ _ Hwf Htr) in Hrun.
    by rewrite Hid in Hrun. }
  rewrite Hrec.
  destruct (status tr); [done|..];
    repeat case_decide; congruence.
Qed.

(** [tell] for an id the journal never handed out is rejected. *)
Lemma tell_unknown s j t v :
  handle_ok s j → id t ∉ created_ids j →
  tell s j t v = (inl UnknownTrialError, j).
Proof.
  intros Hok Hnot. unfold tell. rewrite (sync_trials _ _ Hok).
  rewrite <- ids_replay in Hnot. apply find_trial_None in Hnot.
  by rewrite Hnot.
Qed.

(** [tell] never removes or rewrites an event. *)
Lemma tell_prefix s j t v : j `prefix_of` (tell s j t v).2.
Proof.
  unfold tell. destruct (find_trial _ _) as [tr|]; [|done].
  destruct (status tr); simpl; [by apply prefix_app_r|..];
    by case_decide.
Qed.

Lemma ask_prefix s j : j `prefix_of` (ask s j).2.
Proof. unfold ask. simpl. by apply prefix_app_r. Qed.

End Protocol_facts.

(** ** Parallel runs: the invariant *)

Section System_facts.
Context {Params Value : Type} `{!Score Value}.
Variable objective : Trial Params Value → Outcome Value.
Variable RandomSampler : nat → Params.
Implicit Types (j : Journal Params Value) (s : Study Params Value).
Implicit Types (t : Trial Params Value) (w : Worker Params Value).
Implicit Types (sys : System Params Value) (p : Pc Params Value).

Local Abbreviation worker_step := (worker_step objective RandomSampler).
Local Abbreviation worker_steps := (worker_steps objective RandomSampler).
Local Abbreviation sys_step := (sys_step objective RandomSampler).
Local Abbreviation run_schedule := (run_schedule objective RandomSampler).
Local Abbreviation run_to_end := (run_to_end objective RandomSampler).
Local Abbreviation join := (join objective RandomSampler).
Local Abbreviation Parallel := (Parallel objective RandomSampler).

Lemma worker_step_spec w j :
  journal_wf j → pc_ok j (pc w) →
  worker_steps w j (worker_step w j).1 (worker_step w j).2.
Proof.
  intros Hwf Hok. unfold worker_step.
  destruct (pc w) as [n|s [|n]|s n t| |e] eqn:Hpc; simpl in Hok.
  - eapply step_open; [done|apply handle_ok_create|done].
  - by eapply step_return.
  - destruct (ask_spec s j Hok) as (s1 & -> & Hok1 & Hs). simpl.
    by eapply step_ask.
  - destruct Hok as (Hok & Hin & Hnot).
    destruct (objective t) as [v|e] eqn:Hobj; simpl.
    + destruct (tell_running s j t v Hok Hwf Hin Hnot) as (s1 & -> & ? & ?).
      simpl. by eapply step_tell.
    + by eapply step_raise.
  - simpl. apply step_stay. by rewrite Hpc.
  - simpl. apply step_stay. by rewrite Hpc.
Qed.

(** A property that every step keeps holds after any schedule and after the
    join. *)
Lemma run_schedule_inv (P : System Params Value → Prop) :
  (∀ pid sys, P sys → P (sys_step pid sys)) →
  ∀ sched sys, P sys → P (run_schedule sched sys).
Proof.
  intros Hstep sched. unfold run_schedule.
  induction sched as [|pid sched IH]; intros sys HP; simpl; [done|].
  by apply IH, Hstep.
Qed.

Lemma iter_step_inv (P : System Params Value → Prop) :
  (∀ pid sys, P sys → P (sys_step pid sys)) →
  ∀ n pid sys, P sys → P (Nat.iter n (sys_step pid) sys).
Proof.
  intros Hstep n pid sys HP. induction n as [|n IH]; simpl; [done|].
  by apply Hstep.
Qed.

Lemma run_to_end_inv (P : System Params Value → Prop) :
  (∀ pid sys, P sys → P (sys_step pid sys)) →
  ∀ pid sys, P sys → P (run_to_end pid sys).
Proof.
  intros Hstep pid sys HP. unfold run_to_end.
  destruct (workers sys !! pid); [|done]. by apply iter_step_inv.
Qed.

Lemma join_inv (P : System Params Value → Prop) :
  (∀ pid sys, P sys → P (sys_step pid sys)) →
  ∀ sys, P sys → P (join sys).
Proof.
  intros Hstep sys. unfold join. generalize (seq 0 (length (workers sys))).
  intros pids. revert sys.
  induction pids as [|pid pids IH]; intros sys HP; simpl; [done|].
  by apply IH, run_to_end_inv.
Qed.

Lemma Parallel_inv (P : System Params Value → Prop) :
  (∀ pid sys, P sys → P (sys_step pid sys)) →
  ∀ sched args j, P (mkSystem (spawn <$> args) j) → P (Parallel sched args j).
Proof.
  intros Hstep sched args j HP. unfold Parallel.
  by apply join_inv, run_schedule_inv.
Qed.

Lemma pc_ok_created j p i q :
  pc_ok j p → pc_ok (j ++ [mkEvent (length j) (TrialCreated i q)]) p.
Proof.
  destruct p as [n|s n|s n t| |e]; simpl; [done| | |done..].
  - apply handle_ok_app.
  - intros (Hok & Hin & Hnot). split; [by apply handle_ok_app|].
    rewrite created_ids_snoc, finished_ids_snoc. simpl.
    rewrite app_nil_r. split; [|done]. apply elem_of_app. by left.
Qed.

Lemma pc_ok_finished j p failed i v :
  pc_ok j p → held p ≠ Some i →
  pc_ok (j ++ [mkEvent (length j) (completion failed i v)]) p.
Proof.
  destruct p as [n|s n|s n t| |e]; simpl; [done| | |done..].
  - intros ? _. by apply handle_ok_app.
  - intros (Hok & Hin & Hnot) Hne. split; [by apply handle_ok_app|].
    rewrite created_ids_snoc, finished_ids_snoc.
    rewrite created_id_completion, finished_id_completion. simpl.
    rewrite app_nil_r. split; [done|].
    intros Hin'. apply elem_of_app in Hin' as [?|Hin']; [done|].
    apply list_elem_of_singleton in Hin'. congruence.
Qed.

Lemma sys_inv_spawn args j :
  journal_wf j → sys_inv (mkSystem (spawn <$> args) j).
Proof.
  intros Hwf. split; [done|]. split; cbn [workers journal].
  - apply Forall_fmap, Forall_true. done.
  - intros p q w w' i Hp _ Hheld.
    rewrite list_lookup_fmap in Hp.
    destruct (args !! p); inversion Hp; by subst.
Qed.

(** Every step of every process keeps the invariant. *)
Lemma sys_inv_step pid sys : sys_inv sys → sys_inv (sys_step pid sys).
Proof.
  intros (Hwf & Hall & Huniq). unfold sys_step.
  destruct (workers sys !! pid) as [w|] eqn:Hw; [|done].
  pose proof (Forall_lookup_1 _ _ _ _ Hall Hw) as Hok.
  pose proof (worker_step_spec w _ Hwf Hok) as Hstep.
  destruct (worker_step w (journal sys)) as [w1 j1]. simpl in Hstep.
  pose proof (lookup_lt_Some _ _ _ Hw) as Hlt.
  assert (∀ q w', <[pid:=w1]> (workers sys) !! q = Some w' →
            (q = pid ∧ w' = w1) ∨ (q ≠ pid ∧ workers sys !! q = Some w'))
    as Hcases.
  { intros q w' Hq. destruct (decide (q = pid)) as [->|Hne].
    - rewrite list_lookup_insert_eq in Hq by done. left. by inversion Hq.
    - rewrite list_lookup_insert_ne in Hq by done. by right. }
  assert (∀ q w' i, q ≠ pid → workers sys !! q = Some w' →
            held (pc w) = Some i → held (pc w') ≠ Some i) as Hother.
  { intros q w' i Hne Hq Hh Hh'. apply Hne. by eapply Huniq. }
  inversion Hstep as
    [n s Hpc Hs _|s Hpc|s n s1 p Hpc Hp Hs1 _|s n t e Hpc Hobj
    |s n t v s1 Hpc Hobj Hin Hnot Hs1 _|Hpc]; subst; simpl.
  - (* the study is opened *)
    split; [done|]. split; simpl.
    + by apply Forall_insert.
    + intros p q w0 w' i Hp Hq Hh Hh'.
      apply Hcases in Hp as [[-> ->]|[? Hp]]; [done|].
      apply Hcases in Hq as [[-> ->]|[? Hq]]; [done|]. by eapply Huniq.
  - (* the loop is over *)
    split; [done|]. split; simpl.
    + by apply Forall_insert.
    + intros p q w0 w' i Hp Hq Hh Hh'.
      apply Hcases in Hp as [[-> ->]|[? Hp]]; [done|].
      apply Hcases in Hq as [[-> ->]|[? Hq]]; [done|]. by eapply Huniq.
  - (* ask *)
    split; [by apply wf_created|]. split; simpl.
    + apply Forall_insert.
      * eapply Forall_impl; [exact Hall|]. intros w'. apply pc_ok_created.
      * simpl. split; [done|].
        rewrite created_ids_snoc, finished_ids_snoc. simpl.
        rewrite app_nil_r. split.
        -- apply elem_of_app. right. by apply list_elem_of_singleton.
        -- intros Hfin.
           apply (wf_finished_created _ _ Hwf), (wf_created_lt _ _ Hwf)
             in Hfin. lia.
    + assert (∀ q w', workers sys !! q = Some w' →
                held (pc w') ≠ Some (n_created (journal sys))) as Hfresh.
      { intros q w' Hq Hh. pose proof (Forall_lookup_1 _ _ _ _ Hall Hq) as Hq'.
        simpl in Hq'. destruct (pc w') as [|?|s' n' t'| |]; try done.
        simpl in Hh, Hq'. destruct Hq' as (_ & Hin & _).
        inversion Hh as [Hid]. rewrite Hid in Hin.
        apply (wf_created_lt _ _ Hwf) in Hin. lia. }
      intros p' q w0 w' i Hp' Hq Hh Hh'.
      apply Hcases in Hp' as [[-> ->]|[? Hp']];
        apply Hcases in Hq as [[-> ->]|[? Hq]]; [done| | |by eapply Huniq].
      * simpl in Hh. inversion Hh; subst. by apply Hfresh in Hq.
      * simpl in Hh'. inversion Hh'; subst. by apply Hfresh in Hp'.
  - (* the objective raises *)
    split; [done|]. split; simpl.
    + by apply Forall_insert.
    + intros p q w0 w' i Hp Hq Hh Hh'.
      apply Hcases in Hp as [[-> ->]|[? Hp]]; [done|].
      apply Hcases in Hq as [[-> ->]|[? Hq]]; [done|]. by eapply Huniq.
  - (* tell *)
    split; [by apply wf_finished|]. split; simpl.
    + apply Forall_lookup. intros q w' Hq.
      apply Hcases in Hq as [[-> ->]|[Hne Hq]]; [done|].
      apply pc_ok_finished; [exact (Forall_lookup_1 _ _ _ _ Hall Hq)|].
      eapply Hother; [done..|]. by rewrite Hpc.
    + intros p q w0 w' i Hp Hq Hh Hh'.
      apply Hcases in Hp as [[-> ->]|[? Hp]]; [done|].
      apply Hcases in Hq as [[-> ->]|[? Hq]]; [done|]. by eapply Huniq.
  - (* the process is over *)
    rewrite list_insert_id by done. done.
Qed.

End System_facts.

(** ** Parallel runs: steps, termination, local invariants *)

Section Run_facts.
Context {Params Value : Type} `{!Score Value}.
Variable objective : Trial Params Value → Outcome Value.
Variable RandomSampler : nat → Params.
Implicit Types (j : Journal Params Value) (s : Study Params Value).
Implicit Types (t : Trial Params Value) (w : Worker Params Value).
Implicit Types (sys : System Params Value) (p : Pc Params Value).
Implicit Types (cs : list (Call Params Value)).

Local Abbreviation worker_step := (worker_step objective RandomSampler).
Local Abbreviation worker_steps := (worker_steps objective RandomSampler).
Local Abbreviation sys_step := (sys_step objective RandomSampler).
Local Abbreviation run_schedule := (run_schedule objective RandomSampler).
Local Abbreviation run_to_end := (run_to_end objective RandomSampler).
Local Abbreviation join := (join objective RandomSampler).
Local Abbreviation Parallel := (Parallel objective RandomSampler).

Lemma sys_step_cases pid sys :
  sys_inv sys →
  sys_step pid sys = sys
  ∨ ∃ w w1 j1,
      workers sys !! pid = Some w
      ∧ worker_steps w (journal sys) w1 j1
      ∧ sys_step pid sys = mkSystem (<[pid:=w1]> (workers sys)) j1.
Proof.
  intros (Hwf & Hall & _). unfold sys_step.
  destruct (workers sys !! pid) as [w|] eqn:Hw; [|by left]. right.
  pose proof (Forall_lookup_1 _ _ _ _ Hall Hw) as Hok.
  pose proof (worker_step_spec objective RandomSampler w _ Hwf Hok) as Hstep.
  destruct (worker_step w (journal sys)) as [w1 j1].
  by exists w, w1, j1.
Qed.

Lemma lookup_insert_cases (ws : list (Worker Params Value)) pid w1 q w' :
  <[pid:=w1]> ws !! q = Some w' →
  (q = pid ∧ w' = w1) ∨ (q ≠ pid ∧ ws !! q = Some w').
Proof.
  intros Hq. destruct (decide (q = pid)) as [->|Hne].
  - left. split; [done|].
    apply list_lookup_insert_Some in Hq as [(_ & ? & _)|[? _]]; done.
  - right. by rewrite list_lookup_insert_ne in Hq.
Qed.

(** A property of single workers that every worker step keeps is kept by
    the system. *)
Lemma local_step (Q : Worker Params Value → Prop) :
  (∀ w j w1 j1, Q w → worker_steps w j w1 j1 → Q w1) →
  ∀ pid sys, sys_inv sys →
    Forall Q (workers sys) → Forall Q (workers (sys_step pid sys)).
Proof.
  intros HQ pid sys Hinv Hall.
  destruct (sys_step_cases pid sys Hinv)
    as [->|(w & w1 & j1 & Hw & Hstep & ->)]; [done|]. simpl.
  apply Forall_insert; [done|].
  eapply HQ; [|done]. exact (Forall_lookup_1 _ _ _ _ Hall Hw).
Qed.

Lemma local_step2 {A} (Q : Worker Params Value → A → Prop) (args : list A) :
  (∀ w a j w1 j1, Q w a → worker_steps w j w1 j1 → Q w1 a) →
  ∀ pid sys, sys_inv sys →
    Forall2 Q (workers sys) args → Forall2 Q (workers (sys_step pid sys)) args.
Proof.
  intros HQ pid sys Hinv Hall.
  destruct (sys_step_cases pid sys Hinv)
    as [->|(w & w1 & j1 & Hw & Hstep & ->)]; [done|]. simpl.
  destruct (Forall2_lookup_l _ _ _ _ _ Hall Hw) as (a & Ha & HQa).
  rewrite <- (list_insert_id args pid a Ha).
  apply Forall2_insert; [done|]. by eapply HQ.
Qed.

(** *** The calls of a worker follow the ask / objective / tell cycle *)

Lemma phase_of_snoc cs c : phase_of (cs ++ [c]) = phase_step (phase_of cs) c.
Proof. unfold phase_of. by rewrite fold_left_app. Qed.

Lemma outstanding_ask cs t : outstanding (cs ++ [CallAsk t]) = outstanding cs ++ [id t].
Proof. unfold outstanding. by rewrite fold_left_app. Qed.

Lemma outstanding_objective cs t :
  outstanding (cs ++ [CallObjective t]) = outstanding cs.
Proof. unfold outstanding. by rewrite fold_left_app. Qed.

Lemma outstanding_tell cs t v :
  outstanding (cs ++ [CallTell t v]) = filter (λ i, i ≠ id t) (outstanding cs).
Proof. unfold outstanding. by rewrite fold_left_app. Qed.

Lemma asked_ids_app cs cs' : asked_ids (cs ++ cs') = asked_ids cs ++ asked_ids cs'.
Proof. apply omap_app. Qed.

Lemma calls_ok_step w j w1 j1 :
  calls_ok w → worker_steps w j w1 j1 → calls_ok w1.
Proof.
  unfold calls_ok. intros Hok Hstep.
  inversion Hstep as
    [n s Hpc _ _|s Hpc|s n s1 p Hpc _ _ _|s n t e Hpc Hobj
    |s n t v s1 Hpc Hobj _ _ _ _|Hpc]; subst; simpl;
    try rewrite Hpc in Hok; try done.
  - destruct Hok as [Hph Hout].
    by rewrite phase_of_snoc, outstanding_ask, Hph, Hout.
  - destruct Hok as [Hph Hout]. exists (id t).
    rewrite phase_of_snoc, outstanding_objective, Hph, Hout. simpl.
    by rewrite decide_True.
  - destruct Hok as [Hph Hout].
    change [CallObjective t; CallTell t v]
      with ([CallObjective t] ++ [CallTell t v]).
    rewrite app_assoc, phase_of_snoc, phase_of_snoc, Hph.
    rewrite outstanding_tell, outstanding_objective, Hout. simpl.
    rewrite decide_True by done. simpl. rewrite decide_True by done.
    split; [done|]. rewrite filter_cons, decide_False by (by intros []).
    done.
Qed.

Lemma calls_ok_outstanding w : calls_ok w → length (outstanding (calls w)) ≤ 1.
Proof.
  unfold calls_ok.
  destruct (pc w); [intros [_ ->]|intros [_ ->]|intros [_ ->]
                   |intros [_ ->]|intros (i & _ & ->)]; simpl; lia.
Qed.

Lemma calls_ok_phase w : calls_ok w → phase_of (calls w) ≠ OutOfOrder.
Proof.
  unfold calls_ok.
  destruct (pc w); [intros [-> _]|intros [-> _]|intros [-> _]
                   |intros [-> _]|intros (i & -> & _)]; done.
Qed.

(** *** Every process comes to its end *)

Lemma worker_step_decreases w j :
  steps_left (pc (worker_step w j).1) ≤ pred (steps_left (pc w)).
Proof.
  unfold worker_step. destruct (pc w) as [n|s [|n]|s n t| |e] eqn:Hpc.
  - simpl. lia.
  - simpl. lia.
  - destruct (ask s j) as [[t s1] j1]. simpl. lia.
  - destruct (objective t) as [v|e]; [|simpl; lia].
    destruct (tell s j t v) as [[e|s1] j1]; simpl; lia.
  - simpl. rewrite Hpc. simpl. lia.
  - simpl. rewrite Hpc. simpl. lia.
Qed.

Lemma worker_step_done w j :
  steps_left (pc w) = 0 → worker_step w j = (w, j).
Proof.
  unfold worker_step. destruct (pc w) as [n|s [|n]|s n t| |e]; simpl;
    intros; (done || lia).
Qed.

Lemma sys_step_length pid sys :
  length (workers (sys_step pid sys)) = length (workers sys).
Proof.
  unfold sys_step. destruct (workers sys !! pid) as [w|]; [|done].
  destruct (worker_step w (journal sys)). simpl. apply length_insert.
Qed.

Lemma sys_step_lookup_ne pid q sys :
  q ≠ pid → workers (sys_step pid sys) !! q = workers sys !! q.
Proof.
  intros Hne. unfold sys_step.
  destruct (workers sys !! pid) as [w|]; [|done].
  destruct (worker_step w (journal sys)). simpl.
  by apply list_lookup_insert_ne.
Qed.

Lemma sys_step_lookup_eq pid sys w :
  workers sys !! pid = Some w →
  workers (sys_step pid sys) !! pid = Some (worker_step w (journal sys)).1.
Proof.
  intros Hw. unfold sys_step. rewrite Hw.
  destruct (worker_step w (journal sys)). simpl.
  apply list_lookup_insert_eq. by eapply lookup_lt_Some.
Qed.

(** A process that is over is not changed by any step. *)
Lemma sys_step_done pid q sys w :
  workers sys !! q = Some w → steps_left (pc w) = 0 →
  workers (sys_step pid sys) !! q = Some w.
Proof.
  intros Hw Hdone. destruct (decide (q = pid)) as [->|Hne].
  - rewrite (sys_step_lookup_eq _ _ _ Hw). by rewrite worker_step_done.
  - by rewrite sys_step_lookup_ne.
Qed.

Lemma iter_step_done n pid q sys w :
  workers sys !! q = Some w → steps_left (pc w) = 0 →
  workers (Nat.iter n (sys_step pid) sys) !! q = Some w.
Proof.
  intros Hw Hdone. induction n as [|n IH]; simpl; [done|].
  by apply sys_step_done.
Qed.

Lemma iter_step_terminal n pid sys w :
  workers sys !! pid = Some w → steps_left (pc w) ≤ n →
  ∃ w', workers (Nat.iter n (sys_step pid) sys) !! pid = Some w'
        ∧ steps_left (pc w') = 0.
Proof.
  revert sys w. induction n as [|n IH]; intros sys w Hw Hle.
  - exists w. split; [done|]. lia.
  - rewrite Nat.iter_succ_r.
    apply (IH _ _ (sys_step_lookup_eq _ _ _ Hw)).
    pose proof (worker_step_decreases w (journal sys)). lia.
Qed.

Lemma run_to_end_done pid q sys w :
  workers sys !! q = Some w → steps_left (pc w) = 0 →
  workers (run_to_end pid sys) !! q = Some w.
Proof.
  intros Hw Hdone. unfold run_to_end.
  destruct (workers sys !! pid); [|done]. by apply iter_step_done.
Qed.

Lemma run_to_end_terminal pid sys w :
  workers sys !! pid = Some w →
  ∃ w', workers (run_to_end pid sys) !! pid = Some w'
        ∧ steps_left (pc w') = 0.
Proof.
  intros Hw. unfold run_to_end. rewrite Hw.
  by apply (iter_step_terminal _ _ _ w).
Qed.

Lemma run_to_end_length pid sys :
  length (workers (run_to_end pid sys)) = length (workers sys).
Proof.
  unfold run_to_end. destruct (workers sys !! pid) as [w|]; [|done].
  induction (steps_left (pc w)) as [|n IH]; simpl; [done|].
  by rewrite sys_step_length.
Qed.

Lemma join_fold_done pids sys :
  let sys' := fold_left (λ sy pid, run_to_end pid sy) pids sys in
  length (workers sys') = length (workers sys)
  ∧ ∀ q w', workers sys' !! q = Some w' →
      q ∈ pids ∨ (∀ w, workers sys !! q = Some w → steps_left (pc w) = 0) →
      steps_left (pc w') = 0.
Proof.
  revert sys. induction pids as [|pid pids IH]; intros sys; simpl.
  - split; [done|]. intros q w' Hq [Hin|Hdone]; [|by apply Hdone].
    by apply elem_of_nil in Hin.
  - destruct (IH (run_to_end pid sys)) as [Hlen Hdone].
    split; [by rewrite Hlen, run_to_end_length|].
    intros q w' Hq Hcase. apply (Hdone q w' Hq).
    destruct (decide (q ∈ pids)) as [|Hnin]; [by left|]. right.
    intros w1 Hw1.
    assert (is_Some (workers sys !! q)) as [w0 Hw0].
    { apply lookup_lt_is_Some. rewrite <- run_to_end_length with (pid:=pid).
      by eapply lookup_lt_Some. }
    destruct Hcase as [Hin|Hd].
    + apply elem_of_cons in Hin as [->|?]; [|done].
      destruct (run_to_end_terminal pid sys w0 Hw0) as (w2 & Hw2 & ?).
      by simplify_eq.
    + pose proof (run_to_end_done pid q sys w0 Hw0 (Hd _ Hw0)) as Hw2.
      simplify_eq. by apply Hd.
Qed.

(** After the join every process has returned or raised. *)
Lemma join_done sys :
  Forall (λ w, steps_left (pc w) = 0) (workers (join sys)).
Proof.
  apply Forall_lookup. intros q w Hq. unfold join in *.
  destruct (join_fold_done (seq 0 (length (workers sys))) sys) as [Hlen Hd].
  apply (Hd q w Hq). left. apply elem_of_seq.
  apply lookup_lt_Some in Hq. rewrite Hlen in Hq. lia.
Qed.

Lemma run_schedule_length sched sys :
  length (workers (run_schedule sched sys)) = length (workers sys).
Proof.
  revert sys. unfold run_schedule.
  induction sched as [|pid sched IH]; intros sys; simpl; [done|].
  by rewrite IH, sys_step_length.
Qed.

Lemma join_length sys : length (workers (join sys)) = length (workers sys).
Proof.
  unfold join.
  by destruct (join_fold_done (seq 0 (length (workers sys))) sys) as [-> _].
Qed.

Lemma Parallel_length sched args j :
  length (workers (Parallel sched args j)) = length args.
Proof.
  unfold Parallel. rewrite join_length, run_schedule_length. simpl.
  apply length_fmap.
Qed.

Lemma Parallel_done sched args j :
  Forall (λ w, steps_left (pc w) = 0) (workers (Parallel sched args j)).
Proof. apply join_done. Qed.

(** A property of single workers kept by [worker_step] on any journal is
    kept by every step of the system. *)
Lemma sys_step_Forall (Q : Worker Params Value → Prop) :
  (∀ w j, Q w → Q (worker_step w j).1) →
  ∀ pid sys, Forall Q (workers sys) → Forall Q (workers (sys_step pid sys)).
Proof.
  intros HQ pid sys Hall. unfold sys_step.
  destruct (workers sys !! pid) as [w|] eqn:Hw; [|done].
  pose proof (HQ w (journal sys) (Forall_lookup_1 _ _ _ _ Hall Hw)) as Hw1.
  destruct (worker_step w (journal sys)) as [w1 j1]. simpl in *.
  by apply Forall_insert.
Qed.

(** *** The journal only grows *)

Lemma worker_step_prefix w j : j `prefix_of` (worker_step w j).2.
Proof.
  unfold worker_step. destruct (pc w) as [n|s [|n]|s n t| |e];
    [done|done| | |done..].
  - pose proof (ask_prefix s j) as Hp.
    by destruct (ask s j) as [[t s1] j1].
  - destruct (objective t) as [v|e]; [|done].
    pose proof (tell_prefix s j t v) as Hp.
    by destruct (tell s j t v) as [[e|s1] j1].
Qed.

Lemma sys_step_prefix pid sys :
  journal sys `prefix_of` journal (sys_step pid sys).
Proof.
  unfold sys_step. destruct (workers sys !! pid) as [w|]; [|done].
  pose proof (worker_step_prefix w (journal sys)) as Hp.
  by destruct (worker_step w (journal sys)).
Qed.

End Run_facts.

(** ** The study: replay and the boundary of [tell] *)

Section Study_claims.
Context {Params Value : Type} `{!Score Value}.
Implicit Types (j : Journal Params Value) (s : Study Params Value).
Implicit Types (t : Trial Params Value).
Implicit Types (os : list (JournalOp Params Value)).






Lemma NoDup_filter_eq_length (l : list nat) i :
  NoDup l → i ∈ l → length (filter (λ i', i' = i) l) = 1.
Proof.
  induction 1 as [|x l Hx Hnd IH]; intros Hin.
  - by apply elem_of_nil in Hin.
  - rewrite filter_cons. case_decide as Hc.
    + subst x. simpl. f_equal.
      destruct (filter (λ i', i' = i) l) as [|y l'] eqn:Hf; [done|].
      assert (y ∈ filter (λ i', i' = i) l) as Hy by (rewrite Hf; left).
      apply list_elem_of_filter in Hy as [-> ?]. done.
    + apply elem_of_cons in Hin as [->|Hin]; [done|]. by apply IH.
Qed.

Lemma wf_n_completions j i :
  journal_wf j → i ∈ finished_ids j → n_completions i j = 1.
Proof.
  intros Hwf Hin. apply NoDup_filter_eq_length; [|done].
  by apply wf_NoDup_finished.
Qed.

(** C6.  On a journal the protocol produced and with any consistent handle:
    a first [tell] of a created, unfinished trial records its value; once a
    value [v] is recorded for a trial, telling [v] again changes nothing and
    leaves exactly one completion record for the trial, telling another
    value fails with [DuplicateTellError]; telling a trial whose id the
    journal never handed out fails with [UnknownTrialError]. *)
Theorem tell_idempotence_boundary s j t v :
  journal_wf j → handle_ok s j →
  (id t ∈ created_ids j → id t ∉ finished_ids j →
     ∃ s1 j1, tell s j t v = (inr s1, j1)
              ∧ journal_wf j1 ∧ handle_ok s1 j1
              ∧ completion_record (id t) j1 = Some v
              ∧ n_completions (id t) j1 = 1)
  ∧ (completion_record (id t) j = Some v →
       tell s j t v = (inr (sync s j), j)
       ∧ n_completions (id t) (tell s j t v).2 = 1
       ∧ ∀ v', v' ≠ v →
           tell s j t v' = (inl DuplicateTellError, j)
           ∧ n_completions (id t) (tell s j t v').2 = 1)
  ∧ (id t ∉ created_ids j →
       ∀ v', tell s j t v' = (inl UnknownTrialError, j)).
Proof.
  intros Hwf Hok. split; [|split].
  - intros Hin Hnot.
    destruct (tell_running s j t v Hok Hwf Hin Hnot) as (s1 & Htell & Hok1 & _).
    eexists _, _. split; [exact Htell|].
    assert (journal_wf
              (j ++ [mkEvent (length j)
                       (completion (signals_error v) (id t) v)])) as Hwf1
      by by apply wf_finished.
    split; [done|]. split; [done|]. split.
    + by apply completion_record_snoc.
    + apply wf_n_completions; [done|].
      rewrite finished_ids_snoc, finished_id_completion.
      apply elem_of_app. right. by apply list_elem_of_singleton.
  - intros Hrec.
    pose proof (completion_record_finished _ _ _ Hrec) as Hfin.
    rewrite (tell_finished s j t v v Hok Hwf Hrec), decide_True by done.
    split; [done|]. split; [by apply wf_n_completions|].
    intros v' Hne.
    rewrite (tell_finished s j t v' v Hok Hwf Hrec), decide_False by done.
    split; [done|]. by apply wf_n_completions.
  - intros Hnot v'. by apply tell_unknown.
Qed.

(** [ask] and [tell] take a journal of the protocol to a journal of the
    protocol. *)
Lemma ask_wf s j : journal_wf j → handle_ok s j → journal_wf (ask s j).2.
Proof.
  intros Hwf Hok. destruct (ask_spec s j Hok) as (s1 & -> & _).
  by apply wf_created.
Qed.

Lemma tell_wf s j t v :
  journal_wf j → handle_ok s j → journal_wf (tell s j t v).2.
Proof.
  intros Hwf Hok.
  destruct (decide (id t ∈ created_ids j)) as [Hin|Hnin].
  - destruct (completion_record (id t) j) as [v0|] eqn:Hrec.
    + rewrite (tell_finished s j t v v0 Hok Hwf Hrec). by case_decide.
    + apply completion_record_None in Hrec.
      destruct (tell_running s j t v Hok Hwf Hin Hrec) as (s1 & -> & _).
      by apply wf_finished.
  - by rewrite tell_unknown.
Qed.

End Study_claims.

(** ** Parallel runs: who holds which trial *)

Section Ask_claims.
Context {Params Value : Type} `{!Score Value}.
Variable objective : Trial Params Value → Outcome Value.
Variable RandomSampler : nat → Params.
Implicit Types (j : Journal Params Value) (s : Study Params Value).
Implicit Types (t : Trial Params Value) (w : Worker Params Value).
Implicit Types (sys : System Params Value).

Local Abbreviation worker_steps := (worker_steps objective RandomSampler).
Local Abbreviation sys_step := (sys_step objective RandomSampler).
Local Abbreviation run_schedule := (run_schedule objective RandomSampler).
Local Abbreviation Parallel := (Parallel objective RandomSampler).

(** The ids a step hands to its worker are the ids it adds to the journal:
    none, or the next id. *)
Lemma step_asked w j w1 j1 :
  worker_steps w j w1 j1 →
  ∃ new, asked_ids (calls w1) = asked_ids (calls w) ++ new
         ∧ created_ids j1 = created_ids j ++ new
         ∧ (new = [] ∨ new = [n_created j]).
Proof.
  intros Hstep.
  inversion Hstep as
    [n s Hpc _ _|s Hpc|s n s1 p Hpc _ _ _|s n t e Hpc Hobj
    |s n t v s1 Hpc Hobj _ _ _ _|Hpc]; subst; simpl.
  - exists []. by rewrite !app_nil_r; auto.
  - exists []. by rewrite !app_nil_r; auto.
  - exists [n_created j]. rewrite asked_ids_app, created_ids_snoc. auto.
  - exists []. rewrite asked_ids_app, !app_nil_r. auto.
  - exists []. rewrite asked_ids_app, created_ids_snoc.
    rewrite created_id_completion. auto.
  - exists []. by rewrite !app_nil_r; auto.
Qed.

Lemma step_finished w j w1 j1 i :
  worker_steps w j w1 j1 → i ∈ finished_ids j → i ∈ finished_ids j1.
Proof.
  intros Hstep Hin.
  inversion Hstep; subst; try done;
    rewrite finished_ids_snoc; apply elem_of_app; by left.
Qed.

Lemma asks_unique_step pid sys :
  sys_inv sys → asks_unique sys → asks_unique (sys_step pid sys).
Proof.
  intros Hinv (Hin & Hnd & Huniq).
  destruct (sys_step_cases objective RandomSampler pid sys Hinv)
    as [->|(w & w1 & j1 & Hw & Hstep & ->)]; [done|].
  destruct Hinv as (Hwf & _).
  destruct (step_asked _ _ _ _ Hstep) as (new & Hasked & Hcreated & Hnew).
  assert (∀ q w' i, workers sys !! q = Some w' → i ∈ asked_ids (calls w') →
            i ∉ new) as Hfresh.
  { intros q w' i Hq Hi Hin'. destruct Hnew as [->| ->].
    - by apply elem_of_nil in Hin'.
    - apply list_elem_of_singleton in Hin'. subst i.
      apply (Hin q w' _ Hq) in Hi.
      apply (wf_created_lt _ _ Hwf) in Hi. lia. }
  split; [|split]; simpl.
  - intros q w' i Hq Hi. rewrite Hcreated. apply elem_of_app.
    apply lookup_insert_cases in Hq as [[-> ->]|[_ Hq]].
    + rewrite Hasked in Hi. apply elem_of_app in Hi as [Hi|Hi]; [|by right].
      left. by eapply Hin.
    + left. by eapply Hin.
  - intros q w' Hq.
    apply lookup_insert_cases in Hq as [[-> ->]|[_ Hq]]; [|by eapply Hnd].
    rewrite Hasked. apply NoDup_app. split; [by eapply Hnd|]. split.
    + intros i Hi. by eapply Hfresh.
    + destruct Hnew as [->| ->]; [constructor|apply NoDup_singleton].
  - intros p q w0 w' i Hp Hq Hi Hi'.
    apply lookup_insert_cases in Hp as [[-> ->]|[Hp' Hp]];
      apply lookup_insert_cases in Hq as [[-> ->]|[Hq' Hq]];
      [done| | |by eapply Huniq].
    + rewrite Hasked in Hi. apply elem_of_app in Hi as [Hi|Hi].
      * by eapply Huniq.
      * by apply (Hfresh _ _ _ Hq Hi') in Hi.
    + rewrite Hasked in Hi'. apply elem_of_app in Hi' as [Hi'|Hi'].
      * by eapply Huniq.
      * by apply (Hfresh _ _ _ Hp Hi) in Hi'.
Qed.

Lemma asked_finished_step pid sys :
  sys_inv sys → Forall calls_ok (workers sys) →
  asked_finished sys → asked_finished (sys_step pid sys).
Proof.
  intros Hinv Hcalls Hfin.
  destruct (sys_step_cases objective RandomSampler pid sys Hinv)
    as [->|(w & w1 & j1 & Hw & Hstep & ->)]; [done|].
  intros q w' i Hq Hi. simpl in *.
  apply lookup_insert_cases in Hq as [[-> ->]|[_ Hq]].
  - pose proof (Forall_lookup_1 _ _ _ _ Hcalls Hw) as Hok.
    pose proof (Hfin pid w) as Hold. unfold calls_ok in Hok.
    inversion Hstep as
      [n s Hpc _ _|s Hpc|s n s1 p Hpc _ _ _|s n t e Hpc Hobj
      |s n t v s1 Hpc Hobj _ _ _ _|Hpc]; subst; simpl in *;
      try rewrite Hpc in Hok; try (by apply Hold).
    + destruct Hok as [_ Hout]. rewrite outstanding_ask, Hout.
      rewrite asked_ids_app in Hi. apply elem_of_app in Hi as [Hi|Hi].
      * destruct (Hold i Hw Hi) as [Hl|Hr]; [|by rewrite Hout in Hr].
        left. rewrite finished_ids_snoc. apply elem_of_app. by left.
      * apply list_elem_of_singleton in Hi. subst. by right.
    + rewrite outstanding_objective.
      rewrite asked_ids_app, app_nil_r in Hi. by apply Hold.
    + destruct Hok as [_ Hout].
      rewrite asked_ids_app, app_nil_r in Hi. left.
      rewrite finished_ids_snoc, finished_id_completion.
      apply elem_of_app.
      destruct (Hold i Hw Hi) as [Hl|Hr]; [by left|].
      rewrite Hout in Hr. inversion Hr. right. by left.
  - destruct (Hfin q w' i Hq Hi) as [Hl|Hr]; [|by right].
    left. by eapply step_finished.
Qed.

Lemma run_inv_step pid sys : run_inv sys → run_inv (sys_step pid sys).
Proof.
  intros (Hinv & Hcalls & Huniq & Hfin). split; [|split; [|split]].
  - by apply sys_inv_step.
  - eapply local_step; [|done..]. apply calls_ok_step.
  - by apply asks_unique_step.
  - by apply asked_finished_step.
Qed.

Lemma run_inv_spawn args j :
  journal_wf j → run_inv (mkSystem (spawn <$> args) j).
Proof.
  intros Hwf.
  assert (∀ q w, (spawn <$> args) !! q = Some w →
            calls w = [] ∧ ∃ n, pc w = Spawned n) as Hsp.
  { intros q w Hq. rewrite list_lookup_fmap in Hq.
    destruct (args !! q); inversion Hq; subst. eauto. }
  split; [by apply sys_inv_spawn|]. split; [|split; [split; [|split]|]].
  - apply Forall_lookup. intros q w Hq.
    destruct (Hsp q w Hq) as (Hc & n & Hpc).
    unfold calls_ok. by rewrite Hpc, Hc.
  - intros q w i Hq Hi. destruct (Hsp q w Hq) as (Hc & _).
    rewrite Hc in Hi. by apply elem_of_nil in Hi.
  - intros q w Hq. destruct (Hsp q w Hq) as (-> & _). constructor.
  - intros p q w w' i Hp _ Hi. destruct (Hsp p w Hp) as (Hc & _).
    rewrite Hc in Hi. by apply elem_of_nil in Hi.
  - intros q w i Hq Hi. destruct (Hsp q w Hq) as (Hc & _).
    rewrite Hc in Hi. by apply elem_of_nil in Hi.
Qed.

Lemma asks_cover_step j0 pid sys :
  sys_inv sys → asks_cover j0 sys → asks_cover j0 (sys_step pid sys).
Proof.
  intros Hinv Hcover.
  destruct (sys_step_cases objective RandomSampler pid sys Hinv)
    as [->|(w & w1 & j1 & Hw & Hstep & ->)]; [done|].
  destruct (step_asked _ _ _ _ Hstep) as (new & Hasked & Hcreated & _).
  pose proof (lookup_lt_Some _ _ _ Hw) as Hlt.
  assert (∀ i, i ∈ asked_ids (calls w) ++ new →
            ∃ q w', <[pid:=w1]> (workers sys) !! q = Some w'
                    ∧ i ∈ asked_ids (calls w')) as Hpid.
  { intros i Hi. exists pid, w1. rewrite list_lookup_insert_eq by done.
    by rewrite Hasked. }
  intros i Hi. simpl in *. rewrite Hcreated in Hi.
  apply elem_of_app in Hi as [Hi|Hi].
  - destruct (Hcover i Hi) as [?|(q & w' & Hq & Hin)]; [by left|]. right.
    destruct (decide (q = pid)) as [->|Hne].
    + apply Hpid, elem_of_app. left. by simplify_eq.
    + exists q, w'. by rewrite list_lookup_insert_ne.
  - right. apply Hpid, elem_of_app. by right.
Qed.

Lemma run_inv_ids_unique j0 sys :
  run_inv sys → asks_cover j0 sys → ids_unique j0 sys.
Proof.
  intros ((Hwf & _) & _ & Huniq & _) Hcover.
  split; [|split; [|split; [|split]]].
  - by apply wf_NoDup_created.
  - by apply wf_created_ids.
  - rewrite ids_replay. by apply wf_NoDup_created.
  - done.
  - done.
Qed.

Lemma ids_unique_step j0 pid sys :
  run_inv sys ∧ asks_cover j0 sys →
  run_inv (sys_step pid sys) ∧ asks_cover j0 (sys_step pid sys).
Proof.
  intros [Hinv Hcover]. split; [by apply run_inv_step|].
  destruct Hinv as (Hsys & _). by apply asks_cover_step.
Qed.

Lemma ids_unique_spawn args j :
  journal_wf j →
  run_inv (mkSystem (spawn <$> args) j)
  ∧ asks_cover j (mkSystem (spawn <$> args) j).
Proof.
  intros Hwf. split; [by apply run_inv_spawn|]. intros i Hi. by left.
Qed.

(** C1.  Start any number of processes on a journal the protocol produced,
    each asking any number of times, and interleave them in any way: at
    every point of the run, and when the run is over, the trial ids in the
    journal are pairwise distinct and were assigned in increasing order over
    the whole journal, the study replayed from it has one trial per id, and
    every id assigned during the run was handed to exactly one process,
    once. *)
Theorem ask_ids_pairwise_distinct args sched j :
  journal_wf j →
  ids_unique j (run_schedule sched (mkSystem (spawn <$> args) j))
  ∧ ids_unique j (Parallel sched args j).
Proof.
  intros Hwf. split.
  - destruct (run_schedule_inv objective RandomSampler
                (λ sys, run_inv sys ∧ asks_cover j sys)
                (ids_unique_step j) sched _ (ids_unique_spawn args j Hwf))
      as [Hinv Hcover].
    by apply run_inv_ids_unique.
  - destruct (Parallel_inv objective RandomSampler
                (λ sys, run_inv sys ∧ asks_cover j sys)
                (ids_unique_step j) sched args j
                (ids_unique_spawn args j Hwf)) as [Hinv Hcover].
    by apply run_inv_ids_unique.
Qed.

(** C10.  In any parallel run on a journal the protocol produced, at every
    point and for every process: its calls follow the cycle ask, objective,
    tell; the ids it asked and has not told yet are at most one; and of the
    trials it asked at most one is unfinished in the journal. *)
Theorem at_most_one_outstanding_trial args sched j :
  journal_wf j →
  let sys := run_schedule sched (mkSystem (spawn <$> args) j) in
  ∀ q w, workers sys !! q = Some w →
    phase_of (calls w) ≠ OutOfOrder
    ∧ length (outstanding (calls w)) ≤ 1
    ∧ ∀ i i', i ∈ asked_ids (calls w) → i' ∈ asked_ids (calls w) →
        i ∉ finished_ids (journal sys) → i' ∉ finished_ids (journal sys) →
        i = i'.
Proof.
  intros Hwf sys q w Hq.
  assert (run_inv sys) as (_ & Hcalls & _ & Hfin).
  { apply run_schedule_inv; [apply run_inv_step|by apply run_inv_spawn]. }
  pose proof (Forall_lookup_1 _ _ _ _ Hcalls Hq) as Hok.
  split; [by apply calls_ok_phase|]. split; [by apply calls_ok_outstanding|].
  intros i i' Hi Hi' Hn Hn'.
  destruct (Hfin q w i Hq Hi) as [?|Hout]; [done|].
  destruct (Hfin q w i' Hq Hi') as [?|Hout']; [done|]. congruence.
Qed.

End Ask_claims.

(** ** Counting the asks of a batch *)

Section Count_facts.
Context {Params Value : Type} `{!Score Value}.
Variable objective : Trial Params Value → Outcome Value.
Variable RandomSampler : nat → Params.
Variable clock : nat → Z.
Implicit Types (j : Journal Params Value) (s : Study Params Value).
Implicit Types (t : Trial Params Value) (w : Worker Params Value).
Implicit Types (sys : System Params Value) (d : Driver Params Value).

Local Abbreviation worker_steps := (worker_steps objective RandomSampler).
Local Abbreviation sys_step := (sys_step objective RandomSampler).
Local Abbreviation Parallel := (Parallel objective RandomSampler).
Local Abbreviation driver_loop := (driver_loop objective RandomSampler clock).

Lemma sum_list_with_insert {A} (f : A → nat) (l : list A) i x y :
  l !! i = Some x →
  sum_list_with f (<[i:=y]> l) + f x = sum_list_with f l + f y.
Proof.
  revert i. induction l as [|a l IH]; intros [|i] Hi; simpl in *;
    try done.
  - inversion Hi. lia.
  - specialize (IH i Hi). lia.
Qed.

Lemma sum_list_with_le {A} (f : A → nat) (l : list A) (ns : list nat) :
  Forall2 (λ x n, f x ≤ n) l ns → sum_list_with f l ≤ sum_list ns.
Proof. induction 1 as [|x n l ns Hx _ IH]; simpl; lia. Qed.

Lemma sum_list_with_eq {A} (f : A → nat) (l : list A) (ns : list nat) :
  Forall2 (λ x n, f x = n) l ns → sum_list_with f l = sum_list ns.
Proof. induction 1 as [|x n l ns Hx _ IH]; simpl; lia. Qed.

Lemma total_asked_spawn (args : list nat) :
  total_asked (spawn <$> args : list (Worker Params Value)) = 0.
Proof.
  unfold total_asked. induction args as [|n args IH]; csimpl; [done|].
  by rewrite IH.
Qed.

Lemma first_exception_None sys :
  first_exception sys = None
  ↔ Forall (λ w, raised_by w = None) (workers sys).
Proof.
  unfold first_exception. rewrite head_None. split.
  - intros Hnil. apply Forall_forall. intros w Hw.
    destruct (raised_by w) as [e|] eqn:He; [|done].
    assert (e ∈ omap raised_by (workers sys)) as Hin
      by (apply list_elem_of_omap; eauto).
    rewrite Hnil in Hin. by apply elem_of_nil in Hin.
  - intros Hall. induction Hall as [|w ws Hw _ IH]; simpl; [done|].
    by rewrite Hw.
Qed.

Lemma Parallel_prefix sched args j :
  j `prefix_of` journal (Parallel sched args j).
Proof.
  apply (Parallel_inv objective RandomSampler
           (λ sys, j `prefix_of` journal sys)); [|done].
  intros pid sys Hp. etrans; [done|]. apply sys_step_prefix.
Qed.

Lemma Parallel_sys_inv sched args j :
  journal_wf j → sys_inv (Parallel sched args j).
Proof.
  intros Hwf. apply Parallel_inv; [apply sys_inv_step|].
  by apply sys_inv_spawn.
Qed.

(** Whatever the objective does, a process asks no more than its budget. *)
Lemma asks_le_step w n j w1 j1 :
  length (asked_ids (calls w)) + asks_left (pc w) ≤ n →
  worker_steps w j w1 j1 →
  length (asked_ids (calls w1)) + asks_left (pc w1) ≤ n.
Proof.
  intros Hn Hstep.
  inversion Hstep as
    [n0 s Hpc _ _|s Hpc|s n0 s1 p Hpc _ _ _|s n0 t e Hpc Hobj
    |s n0 t v s1 Hpc Hobj _ _ _ _|Hpc]; subst;
    cbn [pc calls asks_left]; try rewrite Hpc in Hn; cbn [asks_left] in Hn;
    try done.
  - rewrite asked_ids_app, length_app. simpl. lia.
  - rewrite asked_ids_app, app_nil_r. lia.
  - by rewrite asked_ids_app, app_nil_r.
Qed.

(** A process that has not raised is on its way through its budget. *)
Lemma budget_ok_step w n j w1 j1 :
  budget_ok w n → worker_steps w j w1 j1 → budget_ok w1 n.
Proof.
  unfold budget_ok, raised_by. intros Hn Hstep.
  inversion Hstep as
    [n0 s Hpc _ _|s Hpc|s n0 s1 p Hpc _ _ _|s n0 t e Hpc Hobj
    |s n0 t v s1 Hpc Hobj _ _ _ _|Hpc]; subst;
    cbn [pc calls asks_left]; try rewrite Hpc in Hn; cbn [asks_left] in Hn;
    try done.
  - intros _. rewrite asked_ids_app, length_app. simpl.
    specialize (Hn eq_refl). lia.
  - intros _. rewrite asked_ids_app, app_nil_r. by apply Hn.
Qed.

(** Every trial the journal gains was asked by one of the processes. *)
Lemma created_asked_step pid sys :
  sys_inv sys →
  n_created (journal (sys_step pid sys)) + total_asked (workers sys)
  = n_created (journal sys) + total_asked (workers (sys_step pid sys)).
Proof.
  intros Hinv.
  destruct (sys_step_cases objective RandomSampler pid sys Hinv)
    as [->|(w & w1 & j1 & Hw & Hstep & ->)]; [done|].
  unfold total_asked. simpl.
  pose proof (sum_list_with_insert (λ w0, length (asked_ids (calls w0)))
                (workers sys) pid w w1 Hw) as Hsum. simpl in Hsum.
  destruct (step_asked objective RandomSampler _ _ _ _ Hstep)
    as (new & Hasked & Hcreated & _).
  unfold n_created. rewrite Hcreated, length_app.
  rewrite Hasked, length_app in Hsum. lia.
Qed.

(** What a batch asks.  No process asks more than its budget; the journal
    gains exactly the trials asked; and in a batch that ends without an
    exception every process has returned after asking exactly its budget. *)
Lemma Parallel_counts sched args j :
  journal_wf j →
  let sys := Parallel sched args j in
  Forall2 (λ w n, length (asked_ids (calls w)) ≤ n) (workers sys) args
  ∧ n_created (journal sys) = n_created j + total_asked (workers sys)
  ∧ n_created (journal sys) ≤ n_created j + sum_list args
  ∧ (first_exception sys = None →
       Forall2 (λ w n, pc w = Returned ∧ length (asked_ids (calls w)) = n)
         (workers sys) args
       ∧ n_created (journal sys) = n_created j + sum_list args).
Proof.
  intros Hwf sys.
  assert (sys_inv sys
          ∧ Forall2 (λ w n, length (asked_ids (calls w))
                              + asks_left (pc w) ≤ n) (workers sys) args
          ∧ Forall2 budget_ok (workers sys) args
          ∧ n_created (journal sys) = n_created j + total_asked (workers sys))
    as (_ & Hle & Hbud & Hsum).
  { apply (Parallel_inv objective RandomSampler
             (λ sys, sys_inv sys
                     ∧ Forall2 (λ w n, length (asked_ids (calls w))
                                         + asks_left (pc w) ≤ n)
                         (workers sys) args
                     ∧ Forall2 budget_ok (workers sys) args
                     ∧ n_created (journal sys)
                       = n_created j + total_asked (workers sys))).
    - intros pid sy (Hi & Hl & Hb & Hs). split; [by apply sys_inv_step|].
      split; [|split].
      + eapply local_step2; [|done..]. intros ?????. apply asks_le_step.
      + eapply local_step2; [|done..]. intros ?????. apply budget_ok_step.
      + pose proof (created_asked_step pid sy Hi). lia.
    - split; [by apply sys_inv_spawn|]. split; [|split]; simpl.
      + apply Forall2_fmap_l, Forall_Forall2_diag, Forall_true.
        intros n. simpl. lia.
      + apply Forall2_fmap_l, Forall_Forall2_diag, Forall_true.
        by intros n _.
      + rewrite total_asked_spawn. lia. }
  assert (Forall2 (λ w n, length (asked_ids (calls w)) ≤ n)
            (workers sys) args) as Hle'.
  { eapply Forall2_impl; [exact Hle|]. intros w n Hn. simpl in Hn. lia. }
  split; [done|]. split; [done|]. split.
  { rewrite Hsum. pose proof (sum_list_with_le _ _ _ Hle') as Hs.
    unfold total_asked. lia. }
  intros Hexc. apply first_exception_None in Hexc.
  pose proof (Parallel_done objective RandomSampler sched args j) as Hdone.
  fold sys in Hdone.
  assert (Forall2 (λ w n, pc w = Returned
                          ∧ length (asked_ids (calls w)) = n)
            (workers sys) args) as Hret.
  { apply Forall2_same_length_lookup. split; [by eapply Forall2_length|].
    intros q w n Hw Hn.
    pose proof (Forall_lookup_1 _ _ _ _ Hdone Hw) as Hd. simpl in Hd.
    pose proof (Forall_lookup_1 _ _ _ _ Hexc Hw) as Hr. simpl in Hr.
    pose proof (Forall2_lookup_lr _ _ _ _ _ _ Hbud Hw Hn Hr) as Hb.
    unfold raised_by in Hr.
    destruct (pc w); simpl in *; try done; try (exfalso; lia).
    split; [done|lia]. }
  split; [done|]. rewrite Hsum. f_equal. unfold total_asked.
  apply sum_list_with_eq.
  eapply Forall2_impl; [exact Hret|]. by intros w n [_ ?].
Qed.

(** An objective that does not raise gives a batch without an exception. *)
Lemma Parallel_returns sched args j :
  (∀ t, ∃ v, objective t = Returns v) →
  journal_wf j → first_exception (Parallel sched args j) = None.
Proof.
  intros Hret Hwf. apply first_exception_None.
  assert (sys_inv (Parallel sched args j)
          ∧ Forall (λ w, raised_by w = None)
              (workers (Parallel sched args j))) as [_ Hall]; [|done].
  apply (Parallel_inv objective RandomSampler
           (λ sys, sys_inv sys
                   ∧ Forall (λ w, raised_by w = None) (workers sys))).
  - intros pid sy [Hi Hr]. split; [by apply sys_inv_step|].
    eapply local_step; [|done..]. intros w j0 w1 j1 Hw Hstep.
    unfold raised_by in *.
    inversion Hstep as
      [n0 s Hpc _ _|s Hpc|s n0 s1 p Hpc _ _ _|s n0 t e Hpc Hobj
      |s n0 t v s1 Hpc Hobj _ _ _ _|Hpc]; subst; simpl; try done.
    destruct (Hret t) as [v Hv]. congruence.
  - split; [by apply sys_inv_spawn|]. simpl.
    by apply Forall_fmap, Forall_true.
Qed.

(** One batch of the driver. *)
Lemma run_parallel_batch sched total_trials n_process d :
  0 < n_process →
  let k := total_trials `div` n_process in
  let sys := Parallel sched (replicate n_process k) (journal_file d) in
  let r := run_parallel objective RandomSampler clock sched total_trials
             n_process d in
  journal_file r.1 = journal sys ∧ r.2 = first_exception sys.
Proof.
  intros Hpos k sys r. unfold r, run_parallel.
  destruct n_process as [|n]; [lia|]. fold k. fold sys.
  by destruct (first_exception sys).
Qed.

Lemma run_parallel_completed sched total_trials n_process d d1 :
  0 < n_process → journal_wf (journal_file d) →
  run_parallel objective RandomSampler clock sched total_trials n_process d
  = (d1, None) →
  journal_wf (journal_file d1)
  ∧ n_created (journal_file d1)
    = n_created (journal_file d)
      + n_process * (total_trials `div` n_process)
  ∧ journal_file d `prefix_of` journal_file d1.
Proof.
  intros Hpos Hwf Hrun.
  destruct (run_parallel_batch sched total_trials n_process d Hpos)
    as [Hj He].
  rewrite Hrun in Hj, He. simpl in Hj, He. rewrite Hj.
  destruct (Parallel_counts sched
              (replicate n_process (total_trials `div` n_process))
              _ Hwf) as (_ & _ & _ & Hdone).
  destruct (Hdone (eq_sym He)) as [_ Hsum].
  split; [by apply Parallel_sys_inv|].
  split; [by rewrite Hsum, sum_list_replicate|]. apply Parallel_prefix.
Qed.

Lemma run_parallel_prefix sched total_trials n_process d :
  journal_file d
  `prefix_of` journal_file
                (run_parallel objective RandomSampler clock sched
                   total_trials n_process d).1.
Proof.
  unfold run_parallel. destruct n_process as [|n]; [done|].
  destruct (first_exception _); simpl; apply Parallel_prefix.
Qed.

Lemma driver_loop_prefix scheds ns k d :
  journal_file d `prefix_of` journal_file (driver_loop scheds k ns d).1.
Proof.
  revert k d. induction ns as [|n ns IH]; intros k d; simpl; [done|].
  pose proof (run_parallel_prefix (scheds k) nb_trials n d) as Hp.
  destruct (run_parallel _ _ _ _ _ _ _) as [d1 [e|]]; [done|].
  etrans; [exact Hp|]. apply IH.
Qed.

Lemma driver_loop_completed scheds ns k d d1 :
  Forall (λ n, 0 < n) ns → journal_wf (journal_file d) →
  driver_loop scheds k ns d = (d1, None) →
  journal_wf (journal_file d1)
  ∧ n_created (journal_file d1)
    = n_created (journal_file d)
      + sum_list ((λ n, n * (nb_trials `div` n)) <$> ns).
Proof.
  intros Hpos. revert k d.
  induction Hpos as [|n ns Hn _ IH]; intros k d Hwf Hrun; simpl in Hrun.
  - inversion Hrun; subst. split; [done|]. simpl. lia.
  - destruct (run_parallel _ _ _ _ _ _ _) as [d2 [e|]] eqn:Hbatch;
      [done|].
    destruct (run_parallel_completed _ _ _ _ _ Hn Hwf Hbatch)
      as (Hwf2 & Hsum2 & _).
    destruct (IH _ _ Hwf2 Hrun) as (Hwf1 & Hsum1).
    split; [done|]. rewrite Hsum1, Hsum2. csimpl. lia.
Qed.

Lemma driver_loop_returns scheds ns k d :
  (∀ t, ∃ v, objective t = Returns v) →
  Forall (λ n, 0 < n) ns → journal_wf (journal_file d) →
  (driver_loop scheds k ns d).2 = None.
Proof.
  intros Hret Hpos. revert k d.
  induction Hpos as [|n ns Hn _ IH]; intros k d Hwf; simpl; [done|].
  destruct (run_parallel_batch (scheds k) nb_trials n d Hn) as [Hj He].
  rewrite Parallel_returns in He by done.
  destruct (run_parallel _ _ _ _ _ _ _) as [d2 [e|]] eqn:Hbatch;
    [done|].
  apply IH. by destruct (run_parallel_completed _ _ _ _ _ Hn Hwf Hbatch).
Qed.

Lemma driver_loop_app scheds k ns1 ns2 d :
  driver_loop scheds k (ns1 ++ ns2) d
  = match driver_loop scheds k ns1 d with
    | (d1, Some e) => (d1, Some e)
    | (d1, None) => driver_loop scheds (k + length ns1) ns2 d1
    end.
Proof.
  revert k d. induction ns1 as [|n ns1 IH]; intros k d; simpl.
  - by rewrite Nat.add_0_r.
  - destruct (run_parallel _ _ _ _ _ _ _) as [d1 [e|]]; [done|].
    rewrite IH. by replace (S k + length ns1) with (k + S (length ns1)) by lia.
Qed.

End Count_facts.

(** ** The partition of the budget and the accumulation over batches *)

Section Count_claims.
Context {Params Value : Type} `{!Score Value}.
Variable objective : Trial Params Value → Outcome Value.
Variable RandomSampler : nat → Params.
Variable clock : nat → Z.
Implicit Types (j : Journal Params Value) (d : Driver Params Value).

Local Abbreviation Parallel := (Parallel objective RandomSampler).
Local Abbreviation driver_loop := (driver_loop objective RandomSampler clock).
Local Abbreviation driver := (driver objective RandomSampler clock).

(** C3.  With [n_process > 0], [run_parallel] starts [n_process] processes
    and hands each of them [total_trials // n_process] trials: whatever the
    objective does, no process asks more than that.  When the batch ends
    without an exception, every process has returned after asking exactly
    [total_trials // n_process] trials and the journal has gained
    [n_process * (total_trials // n_process)] trials; and it does end
    without an exception when the objective does not raise. *)
Theorem partition_coverage sched total_trials n_process d :
  0 < n_process → journal_wf (journal_file d) →
  let k := total_trials `div` n_process in
  let sys := Parallel sched (replicate n_process k) (journal_file d) in
  let r := run_parallel objective RandomSampler clock sched total_trials
             n_process d in
  length (workers sys) = n_process
  ∧ journal_file r.1 = journal sys
  ∧ Forall (λ w, length (asked_ids (calls w)) ≤ k) (workers sys)
  ∧ n_created (journal sys) ≤ n_created (journal_file d) + n_process * k
  ∧ (r.2 = None →
       Forall (λ w, pc w = Returned ∧ length (asked_ids (calls w)) = k)
         (workers sys)
       ∧ n_created (journal sys) = n_created (journal_file d) + n_process * k)
  ∧ ((∀ t, ∃ v, objective t = Returns v) → r.2 = None).
Proof.
  intros Hpos Hwf k sys r.
  destruct (Parallel_counts objective RandomSampler sched
              (replicate n_process k) _ Hwf)
    as (Hle & _ & Hsumle & Hdone).
  fold sys in Hle, Hsumle, Hdone.
  destruct (run_parallel_batch objective RandomSampler clock sched
              total_trials n_process d Hpos) as [Hj He].
  fold k in Hj, He. fold sys in Hj, He. fold r in Hj, He.
  rewrite sum_list_replicate in Hsumle, Hdone.
  split; [by unfold sys; rewrite Parallel_length, length_replicate|].
  split; [done|]. split; [|split; [done|split]].
  - apply Forall_lookup. intros q w Hw.
    destruct (Forall2_lookup_l _ _ _ _ _ Hle Hw) as (n & Hn & Hq).
    apply lookup_replicate in Hn as [-> _]. done.
  - intros Hnone. rewrite Hnone in He.
    destruct (Hdone (eq_sym He)) as [Hall Hsum]. split; [|done].
    apply Forall_lookup. intros q w Hw.
    destruct (Forall2_lookup_l _ _ _ _ _ Hall Hw) as (n & Hn & Hq).
    apply lookup_replicate in Hn as [-> _]. done.
  - intros Hret. rewrite He. by apply Parallel_returns.
Qed.

(** C9.  The driver threads one journal through its four batches and every
    batch only appends to it.  When the loop over
    [n_processes = [1; 2; 4; 8]] with [nb_trials = 32] ends without an
    exception, as it does when the objective does not raise, it leaves
    [4 * 32 = 128] more trials in the journal and in the study opened from
    it; after [k] batches the journal holds [32 * k] more trials, and the
    journal after any number of batches is a prefix of the final one. *)
Theorem driver_accumulates scheds j :
  journal_wf j →
  let d0 := mkDriver [] [] 0 j in
  let r := driver scheds j in
  j `prefix_of` journal_file r.1
  ∧ ((∀ t, ∃ v, objective t = Returns v) → r.2 = None)
  ∧ (r.2 = None →
       n_created (journal_file r.1) = n_created j + 128
       ∧ length (trials (opened_study RandomSampler (journal_file r.1)))
         = length (trials (opened_study RandomSampler j)) + 128
       ∧ ∀ k, k ≤ 4 →
           let rk := driver_loop scheds 0 (take k n_processes) d0 in
           rk.2 = None
           ∧ n_created (journal_file rk.1) = n_created j + 32 * k
           ∧ j `prefix_of` journal_file rk.1
           ∧ journal_file rk.1 `prefix_of` journal_file r.1).
Proof.
  intros Hwf d0 r.
  assert (Forall (λ n, 0 < n) n_processes) as Hpos
    by (repeat constructor).
  split; [apply (driver_loop_prefix objective RandomSampler clock)|].
  split; [by intros Hret; apply driver_loop_returns|].
  intros Hnone.
  assert (∀ k, k ≤ 4 →
            let rk := driver_loop scheds 0 (take k n_processes) d0 in
            rk.2 = None
            ∧ n_created (journal_file rk.1) = n_created j + 32 * k
            ∧ j `prefix_of` journal_file rk.1
            ∧ journal_file rk.1 `prefix_of` journal_file r.1) as Hk.
  { intros k Hle rk.
    assert (r = match rk with
                | (d1, Some e) => (d1, Some e)
                | (d1, None) =>
                    driver_loop scheds (0 + length (take k n_processes))
                      (drop k n_processes) d1
                end) as Hr.
    { unfold r, driver. fold d0.
      rewrite <- (take_drop k n_processes) at 1.
      by rewrite (driver_loop_app objective RandomSampler clock). }
    pose proof (driver_loop_prefix objective RandomSampler clock scheds
                  (take k n_processes) 0 d0) as Hprek. fold rk in Hprek.
    destruct rk as [dk [e|]] eqn:Hrk.
    { rewrite Hr in Hnone. done. }
    destruct (driver_loop_completed objective RandomSampler clock scheds
                (take k n_processes) 0 d0 dk) as (Hwfk & Hsumk);
      [by apply Forall_take|done|done|].
    split; [done|]. simpl in *. split; [|split; [done|]].
    - rewrite Hsumk. f_equal.
      do 5 (destruct k as [|k]; [reflexivity|]). lia.
    - rewrite Hr. apply (driver_loop_prefix objective RandomSampler clock). }
  destruct (Hk 4) as (_ & Hsum & _ & _); [lia|].
  change (driver_loop scheds 0 (take 4 n_processes) d0) with r in Hsum.
  split; [done|]. split; [|done].
  unfold opened_study, create_study, read_all. simpl.
  rewrite !length_replay. done.
Qed.

End Count_claims.

(** ** One worker on its own: [optimize_study] *)

Section Worker_claims.
Context {Params Value : Type} `{!Score Value}.
Variable objective : Trial Params Value → Outcome Value.
Variable RandomSampler : nat → Params.
Implicit Types (j : Journal Params Value) (s : Study Params Value).
Implicit Types (t : Trial Params Value).

Local Abbreviation optimize_study := (optimize_study objective RandomSampler).
Local Abbreviation trial_at :=
  (trial_with_id (Value:=Value) RandomSampler).
Local Abbreviation runs_iterations := (runs_iterations objective).

Lemma trial_loop_S n s j :
  trial_loop objective (S n) s j
  = let '(trial, study1, j1) := ask s j in
    match objective trial with
    | Raises e => mkRun [CallAsk trial; CallObjective trial] (Some e) j1
    | Returns v =>
        match tell study1 j1 trial v with
        | (inl e, j2) =>
            mkRun [CallAsk trial; CallObjective trial; CallTell trial v]
              (Some e) j2
        | (inr study2, j2) =>
            let r := trial_loop objective n study2 j2 in
            mkRun (CallAsk trial :: CallObjective trial
                     :: CallTell trial v :: run_calls r)
              (run_raised r) (run_journal r)
        end
    end.
Proof. done. Qed.

Lemma length_iterations (steps : list (Trial Params Value * Value)) :
  length (steps ≫= iteration) = 3 * length steps.
Proof.
  induction steps as [|tv steps IH]; [done|].
  rewrite bind_cons, length_app, IH. simpl. lia.
Qed.

Lemma asked_ids_iterations (steps : list (Trial Params Value * Value)) :
  asked_ids (steps ≫= iteration) = id <$> steps.*1.
Proof.
  induction steps as [|tv steps IH]; [done|].
  rewrite bind_cons, asked_ids_app, IH. done.
Qed.

(** While the objective returns, the loop goes on: after [k] iterations
    whose objective returned, the loop is where it would be had it started
    there with [k] fewer iterations to do. *)
Lemma trial_loop_returned k s j :
  handle_ok s j → journal_wf j → handle_sampler s = RandomSampler →
  (∀ i, i < k → ∃ v, objective (trial_at (n_created j + i)) = Returns v) →
  ∃ steps s1 j1,
    length steps = k
    ∧ Forall (λ tv, objective tv.1 = Returns tv.2) steps
    ∧ steps.*1 = trial_at <$> seq (n_created j) k
    ∧ handle_ok s1 j1 ∧ journal_wf j1 ∧ handle_sampler s1 = RandomSampler
    ∧ created_ids j1 = created_ids j ++ seq (n_created j) k
    ∧ finished_ids j1 = finished_ids j ++ seq (n_created j) k
    ∧ j `prefix_of` j1
    ∧ ∀ m, trial_loop objective (k + m) s j
           = let r := trial_loop objective m s1 j1 in
             mkRun ((steps ≫= iteration) ++ run_calls r) (run_raised r)
               (run_journal r).
Proof.
  revert s j. induction k as [|k IH]; intros s j Hok Hwf Hsmp Hret.
  - exists [], s, j. rewrite !app_nil_r.
    repeat (split; [done|]). intros m. simpl. by destruct (trial_loop objective m s j).
  - destruct (ask_spec s j Hok) as (s1 & Hask & Hok1 & Hsmp1).
    simpl in Hask. rewrite Hsmp in Hask, Hok1.
    unfold trial_with_id in *.
    set (t := new_trial (n_created j) (RandomSampler (n_created j))) in *.
    set (j1 := j ++ [mkEvent (length j)
                       (TrialCreated (n_created j)
                          (RandomSampler (n_created j)))]) in *.
    destruct (Hret 0) as [v Hv]; [lia|]. rewrite Nat.add_0_r in Hv. fold t in Hv.
    assert (journal_wf j1) as Hwf1 by by apply wf_created.
    assert (created_ids j1 = created_ids j ++ [n_created j]) as Hc1
      by by unfold j1; rewrite created_ids_snoc.
    assert (finished_ids j1 = finished_ids j) as Hf1
      by by unfold j1; rewrite finished_ids_snoc, app_nil_r.
    assert (id t ∈ created_ids j1) as Hin.
    { rewrite Hc1. apply elem_of_app. right. by left. }
    assert (id t ∉ finished_ids j1) as Hnot.
    { rewrite Hf1. intros Hfin.
      apply (wf_finished_created _ _ Hwf), (wf_created_lt _ _ Hwf) in Hfin.
      simpl in Hfin. lia. }
    destruct (tell_running s1 j1 t v Hok1 Hwf1 Hin Hnot)
      as (s2 & Htell & Hok2 & Hsmp2).
    set (j2 := j1 ++ [mkEvent (length j1)
                        (completion (signals_error v) (id t) v)]) in *.
    assert (journal_wf j2) as Hwf2 by by apply wf_finished.
    assert (created_ids j2 = created_ids j ++ [n_created j]) as Hc2.
    { unfold j2. by rewrite created_ids_snoc, created_id_completion,
        app_nil_r. }
    assert (finished_ids j2 = finished_ids j ++ [n_created j]) as Hf2.
    { unfold j2. by rewrite finished_ids_snoc, finished_id_completion, Hf1. }
    assert (n_created j2 = S (n_created j)) as Hn2.
    { unfold n_created. rewrite Hc2, length_app. simpl. lia. }
    destruct (IH s2 j2 Hok2 Hwf2) as
      (steps & s3 & j3 & Hlen & Hall & Hfst & Hok3 & Hwf3 & Hsmp3
       & Hc3 & Hf3 & Hpre3 & Hloop).
    { by rewrite Hsmp2, Hsmp1. }
    { intros i Hi. rewrite Hn2. destruct (Hret (S i)) as [v' Hv']; [lia|].
      exists v'. by replace (S (n_created j) + i)
                     with (n_created j + S i) by lia. }
    exists ((t, v) :: steps), s3, j3. rewrite Hn2 in *.
    split; [simpl; by rewrite Hlen|]. split; [by constructor|].
    split; [cbn [seq]; by rewrite !fmap_cons, Hfst|].
    split; [done|]. split; [done|]. split; [done|].
    split; [by rewrite Hc3, Hc2, <- app_assoc|].
    split; [by rewrite Hf3, Hf2, <- app_assoc|].
    split.
    { etrans; [|done]. unfold j2, j1. rewrite <- app_assoc.
      by apply prefix_app_r. }
    intros m. change (S k + m) with (S (k + m)).
    rewrite trial_loop_S, Hask, Hv, Htell, Hloop. done.
Qed.

Lemma ids_trial_at (l : list nat) : id <$> (trial_at <$> l) = l.
Proof. induction l as [|i l IH]; csimpl; [done|]. by rewrite IH. Qed.

(** Every call is a sequence of full iterations, followed, when the
    objective raises, by the ask and the evaluation of one more. *)
Lemma trial_loop_shape n s j :
  handle_ok s j → journal_wf j →
  let r := trial_loop objective n s j in
  ∃ steps,
    Forall (λ tv, objective tv.1 = Returns tv.2) steps
    ∧ ((run_raised r = None ∧ length steps = n
        ∧ run_calls r = steps ≫= iteration)
       ∨ ∃ t e, objective t = Raises e ∧ run_raised r = Some e
                ∧ length steps < n
                ∧ run_calls r
                  = (steps ≫= iteration) ++ [CallAsk t; CallObjective t]).
Proof.
  revert s j. induction n as [|n IH]; intros s j Hok Hwf.
  - exists []. split; [done|]. by left.
  - destruct (ask_spec s j Hok) as (s1 & Hask & Hok1 & _). simpl in Hask.
    set (t := new_trial (n_created j) (handle_sampler s (n_created j))) in *.
    set (j1 := j ++ _) in *.
    assert (journal_wf j1) as Hwf1 by by apply wf_created.
    cbv zeta. rewrite trial_loop_S, Hask.
    destruct (objective t) as [v|e] eqn:Hobj.
    + assert (id t ∈ created_ids j1) as Hin.
      { unfold j1. rewrite created_ids_snoc. apply elem_of_app. right.
        by left. }
      assert (id t ∉ finished_ids j1) as Hnot.
      { unfold j1. rewrite finished_ids_snoc, app_nil_r. intros Hfin.
        apply (wf_finished_created _ _ Hwf), (wf_created_lt _ _ Hwf) in Hfin.
        simpl in Hfin. lia. }
      destruct (tell_running s1 j1 t v Hok1 Hwf1 Hin Hnot)
        as (s2 & -> & Hok2 & _).
      set (j2 := j1 ++ _) in *.
      assert (journal_wf j2) as Hwf2 by by apply wf_finished.
      destruct (IH s2 j2 Hok2 Hwf2)
        as (steps & Hall & [(Hr & Hlen & Hcalls)
                           |(t' & e & Hraise & Hr & Hlen & Hcalls)]).
      * exists ((t, v) :: steps). split; [by constructor|]. left.
        cbn [run_calls run_raised]. split; [done|].
        split; [simpl; by rewrite Hlen|]. by rewrite Hcalls.
      * exists ((t, v) :: steps). split; [by constructor|]. right.
        exists t', e. cbn [run_calls run_raised].
        split; [done|]. split; [done|]. split; [simpl; lia|].
        by rewrite Hcalls.
    + exists []. split; [done|]. right. exists t, e.
      cbn [run_calls run_raised]. split; [done|]. split; [done|].
      split; [simpl; lia|done].
Qed.

(** C5 (amended).  For every objective and every [n_trials], a call of
    [optimize_study] that returns has performed exactly [n_trials]
    iterations, each one [study.ask()], one evaluation of the objective on
    the trial asked and one [study.tell] of the returned score for that
    trial, in this order; a call that ends with an exception has performed
    fewer full iterations, followed by the ask and the evaluation that
    raised.  For an objective that does not raise the call returns: it is
    handed the next [n_trials] ids and tells each of them. *)
Theorem optimize_study_iterations n_trials j :
  journal_wf j →
  let r := optimize_study n_trials j in
  (run_raised r = None → runs_iterations n_trials r)
  ∧ (∀ e, run_raised r = Some e →
       ∃ steps t,
         length steps < n_trials
         ∧ Forall (λ tv, objective tv.1 = Returns tv.2) steps
         ∧ objective t = Raises e
         ∧ run_calls r = (steps ≫= iteration) ++ [CallAsk t; CallObjective t])
  ∧ ((∀ t, ∃ v, objective t = Returns v) →
       runs_iterations n_trials r
       ∧ run_raised r = None
       ∧ asked_ids (run_calls r) = seq (n_created j) n_trials
       ∧ finished_ids (run_journal r)
         = finished_ids j ++ seq (n_created j) n_trials).
Proof.
  intros Hwf r.
  destruct (trial_loop_shape n_trials (opened_study RandomSampler j) j)
    as (steps & Hall & Hshape); [apply handle_ok_create|done|].
  fold (optimize_study n_trials j) in Hshape. fold r in Hshape.
  split; [|split].
  - intros Hnone.
    destruct Hshape as [(_ & Hlen & Hcalls)|(t & e & _ & Hr & _)];
      [by exists steps|congruence].
  - intros e He.
    destruct Hshape as [(Hr & _)|(t & e' & Hraise & Hr & Hlen & Hcalls)];
      [congruence|].
    exists steps, t. by simplify_eq.
  - intros Hret.
    destruct (trial_loop_returned n_trials (opened_study RandomSampler j) j)
      as (steps' & s1 & j1 & Hlen & Hall' & Hfst & _ & _ & _ & _ & Hf & _
          & Hloop);
      [apply handle_ok_create|done|done|by intros; apply Hret|].
    specialize (Hloop 0). rewrite Nat.add_0_r in Hloop. simpl in Hloop.
    unfold r, optimize_study. rewrite Hloop. simpl. rewrite app_nil_r.
    split; [by exists steps'|]. split; [done|]. split; [|done].
    by rewrite asked_ids_iterations, Hfst, ids_trial_at.
Qed.

(** C4 (amended).  [optimize_study] does not catch what the objective
    raises.  If the objective returns on the first [k] trials of a call and
    raises on the next one, [k < n_trials], the exception leaves the call:
    [k + 1] trials were asked and the remaining iterations are not run, the
    first [k] trials are told, and the trial that raised has no completion
    record: it stays [Running], it is not recorded as [Failed]. *)
Theorem objective_raise_stops_worker n_trials k j e :
  journal_wf j → k < n_trials →
  (∀ i, i < k → ∃ v, objective (trial_at (n_created j + i)) = Returns v) →
  objective (trial_at (n_created j + k)) = Raises e →
  let r := optimize_study n_trials j in
  run_raised r = Some e
  ∧ asked_ids (run_calls r) = seq (n_created j) (S k)
  ∧ created_ids (run_journal r) = created_ids j ++ seq (n_created j) (S k)
  ∧ finished_ids (run_journal r) = finished_ids j ++ seq (n_created j) k
  ∧ journal_wf (run_journal r)
  ∧ ∀ t, t ∈ replay (run_journal r) → id t = n_created j + k →
         status t = Running.
Proof.
  intros Hwf Hlt Hret Hraise r.
  destruct (trial_loop_returned k (opened_study RandomSampler j) j)
    as (steps & s1 & j1 & Hlen & Hall & Hfst & Hok1 & Hwf1 & Hsmp1 & Hc & Hf
        & _ & Hloop); [apply handle_ok_create|done|done|done|].
  specialize (Hloop (S (n_trials - S k))).
  replace (k + S (n_trials - S k)) with n_trials in Hloop by lia.
  assert (n_created j1 = n_created j + k) as Hn1.
  { unfold n_created. by rewrite Hc, length_app, length_seq. }
  destruct (ask_spec s1 j1 Hok1) as (s2 & Hask & _ & _).
  simpl in Hask. rewrite Hsmp1, Hn1 in Hask.
  unfold trial_with_id in Hraise.
  rewrite trial_loop_S, Hask, Hraise in Hloop. simpl in Hloop.
  set (j2 := j1 ++ _) in Hloop.
  assert (journal_wf j2) as Hwf2.
  { unfold j2. rewrite <- Hn1. by apply wf_created. }
  assert (created_ids j2 = created_ids j ++ seq (n_created j) (S k)) as Hc2.
  { unfold j2. rewrite created_ids_snoc, Hc, seq_S, app_assoc. done. }
  assert (finished_ids j2 = finished_ids j ++ seq (n_created j) k) as Hf2.
  { unfold j2. by rewrite finished_ids_snoc, Hf, app_nil_r. }
  unfold r, optimize_study. rewrite Hloop.
  cbn [run_calls run_raised run_journal].
  split; [done|]. split.
  { rewrite asked_ids_app, asked_ids_iterations, Hfst, ids_trial_at.
    by rewrite seq_S. }
  split; [done|]. split; [done|]. split; [done|].
  intros t Ht Hid. apply (wf_status_running _ _ Hwf2 Ht).
  rewrite Hid, Hf2. intros Hin. apply elem_of_app in Hin as [Hin|Hin].
  - apply (wf_finished_created _ _ Hwf), (wf_created_lt _ _ Hwf) in Hin. lia.
  - apply elem_of_seq in Hin. lia.
Qed.

End Worker_claims.

(** ** The two readings of the worker agree

    A batch of one process, whatever the schedule, does what the loop of
    [optimize_study] does: the same calls, the same exception, the same
    journal. *)

Section Worker_alone.
Context {Params Value : Type} `{!Score Value}.
Variable objective : Trial Params Value → Outcome Value.
Variable RandomSampler : nat → Params.
Implicit Types (j : Journal Params Value) (s : Study Params Value).
Implicit Types (w : Worker Params Value) (sys : System Params Value).
Implicit Types (cs : list (Call Params Value)).

Local Abbreviation step0 := (sys_step objective RandomSampler 0).

(** How a call of [optimize_study] ended, as a program point. *)
Local Abbreviation ended r :=
  (match run_raised r with
   | None => Returned
   | Some e => Raised e
   end : Pc Params Value).

Lemma step0_done w j :
  steps_left (pc w) = 0 → step0 (mkSystem [w] j) = mkSystem [w] j.
Proof.
  intros Hdone. unfold sys_step. simpl.
  by rewrite (worker_step_done objective RandomSampler w j Hdone).
Qed.

Lemma iter_step0_done m w j :
  steps_left (pc w) = 0 → Nat.iter m step0 (mkSystem [w] j) = mkSystem [w] j.
Proof.
  intros Hdone. induction m as [|m IH]; simpl; [done|].
  by rewrite IH, step0_done.
Qed.

Lemma step0_return s cs j :
  step0 (mkSystem [mkWorker (Asking s 0) cs] j)
  = mkSystem [mkWorker Returned cs] j.
Proof. done. Qed.

Lemma step0_ask s n cs j :
  step0 (mkSystem [mkWorker (Asking s (S n)) cs] j)
  = mkSystem [mkWorker (Telling (ask s j).1.2 n (ask s j).1.1)
                (cs ++ [CallAsk (ask s j).1.1])] (ask s j).2.
Proof.
  unfold sys_step, worker_step. simpl.
  by destruct (ask s j) as [[t s1] j1].
Qed.

Lemma step0_tell s n t cs j :
  step0 (mkSystem [mkWorker (Telling s n t) cs] j)
  = match objective t with
    | Raises e => mkSystem [mkWorker (Raised e) (cs ++ [CallObjective t])] j
    | Returns v =>
        match tell s j t v with
        | (inl e, j1) =>
            mkSystem [mkWorker (Raised e)
                        (cs ++ [CallObjective t; CallTell t v])] j1
        | (inr s1, j1) =>
            mkSystem [mkWorker (Asking s1 n)
                        (cs ++ [CallObjective t; CallTell t v])] j1
        end
    end.
Proof.
  unfold sys_step, worker_step. simpl.
  destruct (objective t) as [v|e]; [|done].
  by destruct (tell s j t v) as [[e|s1] j1].
Qed.

Lemma iter_step0_loop n s j cs m :
  2 * n + 1 ≤ m →
  let r := trial_loop objective n s j in
  Nat.iter m step0 (mkSystem [mkWorker (Asking s n) cs] j)
  = mkSystem [mkWorker (ended r) (cs ++ run_calls r)] (run_journal r).
Proof.
  revert s j cs m. induction n as [|n IH]; intros s j cs m Hm.
  - destruct m as [|m]; [lia|]. rewrite Nat.iter_succ_r, step0_return.
    simpl. rewrite app_nil_r. by apply iter_step0_done.
  - destruct m as [|[|m]]; [lia..|]. rewrite !Nat.iter_succ_r.
    rewrite trial_loop_S, step0_ask, step0_tell.
    destruct (ask s j) as [[t s1] j1]. simpl.
    destruct (objective t) as [v|e]; simpl.
    + destruct (tell s1 j1 t v) as [[e|s2] j2]; simpl.
      * rewrite <- app_assoc. by apply iter_step0_done.
      * rewrite IH by lia. simpl. by rewrite <- !app_assoc.
    + rewrite <- app_assoc. by apply iter_step0_done.
Qed.

Lemma iter_step0_spawned n j m :
  2 * n + 2 ≤ m →
  let r := optimize_study objective RandomSampler n j in
  Nat.iter m step0 (mkSystem [spawn n] j)
  = mkSystem [mkWorker (ended r) (run_calls r)] (run_journal r).
Proof.
  intros Hm. destruct m as [|m]; [lia|]. rewrite Nat.iter_succ_r.
  change (step0 (mkSystem [spawn n] j))
    with (mkSystem [mkWorker (Asking (opened_study RandomSampler j) n) []] j).
  rewrite iter_step0_loop by lia. done.
Qed.

Lemma iter_step0_length m sys :
  length (workers (Nat.iter m step0 sys)) = length (workers sys).
Proof.
  induction m as [|m IH]; simpl; [done|]. by rewrite sys_step_length.
Qed.

Lemma run_schedule_single sched sys :
  length (workers sys) = 1 →
  ∃ k, run_schedule objective RandomSampler sched sys = Nat.iter k step0 sys.
Proof.
  revert sys. unfold run_schedule.
  induction sched as [|pid sched IH]; intros sys Hlen; simpl.
  - by exists 0.
  - destruct pid as [|pid].
    + destruct (IH (step0 sys)) as [k Hk]; [by rewrite sys_step_length|].
      exists (S k). by rewrite Nat.iter_succ_r.
    + assert (sys_step objective RandomSampler (S pid) sys = sys) as ->.
      { unfold sys_step. rewrite lookup_ge_None_2; [done|]. lia. }
      by apply IH.
Qed.

Lemma Parallel_single sched n j :
  let r := optimize_study objective RandomSampler n j in
  Parallel objective RandomSampler sched [n] j
  = mkSystem [mkWorker (ended r) (run_calls r)] (run_journal r).
Proof.
  intros r. unfold Parallel.
  destruct (run_schedule_single sched (mkSystem (spawn <$> [n]) j))
    as [k Hk]; [done|].
  rewrite Hk. clear Hk. simpl.
  set (init := mkSystem [spawn n] j).
  pose proof (iter_step0_length k init) as Hlen.
  destruct (Nat.iter k step0 init) as [[|w [|? ?]] jk] eqn:Hit;
    simpl in Hlen; try lia.
  unfold join. simpl. unfold run_to_end. simpl.
  destruct (iter_step_terminal objective RandomSampler
              (steps_left (pc w)) 0 (mkSystem [w] jk) w)
    as (w' & Hw' & Hdone); [done|lia|].
  rewrite <- Hit, <- Nat.iter_add in *.
  pose proof (iter_step0_length (steps_left (pc w) + k) init) as Hlen'.
  destruct (Nat.iter (steps_left (pc w) + k) step0 init)
    as [[|w1 [|? ?]] j1] eqn:Hend; simpl in Hlen'; try lia.
  simpl in Hw'. inversion Hw'; subst w1.
  rewrite <- (iter_step0_done (2 * n + 2) w' j1 Hdone).
  rewrite <- Hend, <- Nat.iter_add.
  apply iter_step0_spawned. lia.
Qed.

End Worker_alone.

(** ** The journal file and the driver's report *)

Section Driver_claims.
Context {Params Value : Type} `{!Score Value}.
Variable objective : Trial Params Value → Outcome Value.
Variable RandomSampler : nat → Params.
Variable clock : nat → Z.
Implicit Types (j : Journal Params Value) (s : Study Params Value).
Implicit Types (w : Worker Params Value) (sys : System Params Value).
Implicit Types (d : Driver Params Value).

Local Abbreviation Parallel := (Parallel objective RandomSampler).

Lemma string_length_app (a b : string) :
  String.length (a +:+ b) = String.length a + String.length b.
Proof. induction a as [|c a IH]; simpl; [done|]. by rewrite IH. Qed.

Lemma string_app_suffix_inj (suffix a b : string) :
  a +:+ suffix = b +:+ suffix → a = b.
Proof.
  revert b. induction a as [|c a IH]; intros [|c' b] Heq.
  - done.
  - apply (f_equal String.length) in Heq.
    rewrite !string_length_app in Heq. simpl in Heq. exfalso. lia.
  - apply (f_equal String.length) in Heq.
    rewrite !string_length_app in Heq. simpl in Heq. exfalso. lia.
  - simpl in Heq. inversion Heq. f_equal. by apply IH.
Qed.

(** The journal's file name is a function of the name it is built from, and
    different names give different files. *)
Lemma log_name_of_inj a b : log_name_of a = log_name_of b → a = b.
Proof.
  unfold log_name_of. intros Heq.
  apply (inj (String.app "optuna-journal_")) in Heq.
  by apply string_app_suffix_inj in Heq.
Qed.


(** All the same, the processes share one journal file: every handle of a
    parallel run is bound to the notebook's [storage]. *)
Lemma worker_step_shares w j :
  shares_storage w →
  shares_storage (worker_step objective RandomSampler w j).1.
Proof.
  unfold shares_storage, worker_step.
  destruct (pc w) as [n|s [|n]|s n t| |e] eqn:Hpc; simpl; try done.
  - destruct (objective t) as [v|e]; [|done].
    unfold tell. destruct (find_trial _ _) as [tr|]; [|done].
    destruct (status tr); simpl; [done|..]; by case_decide.
  - by rewrite Hpc.
  - by rewrite Hpc.
Qed.

Lemma workers_share_storage sched args j :
  Forall shares_storage
    (workers (run_schedule objective RandomSampler sched
                (mkSystem (spawn <$> args) j))).
Proof.
  apply (run_schedule_inv objective RandomSampler
           (λ sys, Forall shares_storage (workers sys))).
  - intros pid sys. apply sys_step_Forall. apply worker_step_shares.
  - simpl. by apply Forall_fmap, Forall_true.
Qed.



End Driver_claims.

(** ** The model at work: instances and counterexamples *)

Lemma steady_objective_returns t : ∃ v, steady_objective t = Returns v.
Proof. by eexists. Qed.

Lemma demo_journal_wf : journal_wf demo_journal.
Proof.
  apply (wf_finished [mkEvent 0 (TrialCreated 0 (demo_sampler 0))]
           false 0 (Finite 5)).
  - apply (wf_created [] (demo_sampler 0)), wf_empty.
  - by left.
  - apply not_elem_of_nil.
Qed.

Lemma ask_ids_pairwise_distinct_witness :
  ids_unique demo_journal
    (run_schedule marker_objective demo_sampler [0; 1; 1; 0; 2; 1]
       (mkSystem (spawn <$> [2; 3; 1]) demo_journal))
  ∧ ids_unique demo_journal
      (Parallel marker_objective demo_sampler [0; 1; 1; 0; 2; 1] [2; 3; 1]
         demo_journal).
Proof.
  exact (ask_ids_pairwise_distinct marker_objective demo_sampler
           [2; 3; 1] [0; 1; 1; 0; 2; 1] demo_journal demo_journal_wf).
Defined.


(** [total_trials = 32] and [total_trials = 33] with four processes: eight
    trials each, 32 trials asked in both cases. *)
Lemma partition_coverage_witness :
  let sys32 := Parallel steady_objective demo_sampler (demo_scheds 0)
                 (replicate 4 (32 `div` 4)) [] in
  let sys33 := Parallel steady_objective demo_sampler (demo_scheds 0)
                 (replicate 4 (33 `div` 4)) [] in
  (length (workers sys32) = 4
   ∧ Forall (λ w, pc w = Returned ∧ length (asked_ids (calls w)) = 8)
       (workers sys32)
   ∧ n_created (journal sys32) = 32)
  ∧ (length (workers sys33) = 4
     ∧ Forall (λ w, pc w = Returned ∧ length (asked_ids (calls w)) = 8)
         (workers sys33)
     ∧ n_created (journal sys33) = 32).
Proof.
  intros sys32 sys33.
  pose (d := mkDriver [] [] 0 [] : Driver (Z * Z) Loss).
  pose proof (partition_coverage steady_objective demo_sampler demo_clock
                (demo_scheds 0) 32 4 d ltac:(lia) wf_empty)
    as (H1 & _ & _ & _ & H32 & R32).
  pose proof (partition_coverage steady_objective demo_sampler demo_clock
                (demo_scheds 0) 33 4 d ltac:(lia) wf_empty)
    as (H2 & _ & _ & _ & H33 & R33).
  destruct (H32 (R32 steady_objective_returns)) as (H3 & H4).
  destruct (H33 (R33 steady_objective_returns)) as (H5 & H6).
  split; (split; [|split]); assumption.
Defined.

Lemma marker_objective_first_raise :
  ∀ i, i < 2 →
    ∃ v, marker_objective
           (trial_with_id demo_sampler
              (n_created ([] : Journal (Z * Z) Loss) + i))
         = Returns v.
Proof.
  intros [|[|i]] Hi; [by eexists..|]. exfalso. lia.
Qed.

Lemma objective_raise_stops_worker_witness :
  let r := optimize_study marker_objective demo_sampler 10 [] in
  run_raised r = Some (ObjectiveEvaluationError "marker")
  ∧ asked_ids (run_calls r) = [0; 1; 2]
  ∧ created_ids (run_journal r) = [0; 1; 2]
  ∧ finished_ids (run_journal r) = [0; 1]
  ∧ journal_wf (run_journal r)
  ∧ ∀ t, t ∈ replay (run_journal r) → id t = 2 → status t = Running.
Proof.
  exact (objective_raise_stops_worker marker_objective demo_sampler 10 2 []
           (ObjectiveEvaluationError "marker") wf_empty ltac:(lia)
           marker_objective_first_raise eq_refl).
Defined.

Lemma optimize_study_iterations_witness :
  let r := optimize_study steady_objective demo_sampler 3 demo_journal in
  runs_iterations steady_objective 3 r
  ∧ run_raised r = None
  ∧ asked_ids (run_calls r) = [1; 2; 3]
  ∧ finished_ids (run_journal r) = [0; 1; 2; 3].
Proof.
  exact (proj2 (proj2 (optimize_study_iterations steady_objective
                         demo_sampler 3 demo_journal demo_journal_wf))
           steady_objective_returns).
Defined.

(** Trial 0 of [demo_journal] was told [Finite 5]; a handle that has not read
    the journal yet tells it again, tells another value, and tells a trial
    the journal never handed out. *)
Lemma tell_idempotence_boundary_witness :
  let s := opened_study demo_sampler [] in
  let t := new_trial 0 (demo_sampler 0) in
  tell s demo_journal t (Finite 5) = (inr (sync s demo_journal), demo_journal)
  ∧ tell s demo_journal t (Finite 6) = (inl DuplicateTellError, demo_journal)
  ∧ tell s demo_journal (new_trial 7 (demo_sampler 7)) (Finite 5)
    = (inl UnknownTrialError, demo_journal).
Proof.
  intros s t.
  assert (handle_ok s demo_journal) as Hok
    by (split; [simpl; lia|reflexivity]).
  destruct (tell_idempotence_boundary s demo_journal t (Finite 5)
              demo_journal_wf Hok) as (_ & Htold & _).
  destruct (Htold eq_refl) as (Hsame & _ & Hother).
  destruct (tell_idempotence_boundary s demo_journal
              (new_trial 7 (demo_sampler 7)) (Finite 5)
              demo_journal_wf Hok) as (_ & _ & Hunknown).
  split; [exact Hsame|]. split.
  - apply (Hother (Finite 6)). discriminate.
  - apply Hunknown. intros Hin.
    apply list_elem_of_singleton in Hin. discriminate.
Defined.


Lemma driver_accumulates_witness :
  let r := driver steady_objective demo_sampler demo_clock demo_scheds [] in
  r.2 = None ∧ n_created (journal_file r.1) = 128.
Proof.
  pose proof (driver_accumulates steady_objective demo_sampler demo_clock
                demo_scheds [] wf_empty) as (_ & Hret & Hdone).
  pose proof (Hret steady_objective_returns) as Hnone.
  destruct (Hdone Hnone) as (Hsum & _).
  split; assumption.
Defined.

Lemma at_most_one_outstanding_trial_witness :
  let sys := run_schedule marker_objective demo_sampler [0; 1; 1; 0; 2; 1]
               (mkSystem (spawn <$> [2; 3; 1]) demo_journal) in
  Forall (λ w, phase_of (calls w) ≠ OutOfOrder
               ∧ length (outstanding (calls w)) ≤ 1
               ∧ ∀ i i', i ∈ asked_ids (calls w) → i' ∈ asked_ids (calls w) →
                   i ∉ finished_ids (journal sys) →
                   i' ∉ finished_ids (journal sys) → i = i')
    (workers sys).
Proof.
  apply Forall_lookup. intros q w Hq.
  exact (at_most_one_outstanding_trial marker_objective demo_sampler
           [2; 3; 1] [0; 1; 1; 0; 2; 1] demo_journal demo_journal_wf
           q w Hq).
Defined.

(** C4, as stated, fails.  Ten trials, the objective raising on the three
    parameter sets drawn for the ids 2, 5 and 7: the run ends with the first
    exception, with two trials [Complete], one [Running] and none [Failed],
    not with seven [Complete] and three [Failed]. *)
Lemma failure_isolation_refuted :
  let r := optimize_study marker_objective demo_sampler 10 [] in
  let ts := replay (run_journal r) in
  run_raised r = Some (ObjectiveEvaluationError "marker")
  ∧ (n_status Complete ts, n_status Failed ts, n_status Running ts)
    = (2, 0, 1)
  ∧ ¬ (n_status Complete ts = 7 ∧ n_status Failed ts = 3).
Proof.
  split; [reflexivity|]. split; [reflexivity|].
  intros [H _]. vm_compute in H. discriminate.
Qed.

(** C5, as stated for every objective, fails: with the same objective the
    call for ten trials does not perform ten iterations. *)
Lemma every_objective_iterations_refuted :
  ¬ runs_iterations marker_objective 10
      (optimize_study marker_objective demo_sampler 10 []).
Proof.
  intros (steps & Hlen & _ & Hcalls).
  apply (f_equal length) in Hcalls.
  rewrite length_iterations, Hlen in Hcalls.
  vm_compute in Hcalls. discriminate.
Qed.


(** * Beyond the claims *)

(** ** The data split of cell 2 *)

Section Dataset_facts.
Context {Point : Type}.
Implicit Types (X : list Point).

Lemma slice_bound_nat len a : slice_bound len (Z.of_nat a) = a `min` len.
Proof.
  unfold slice_bound. destruct (Z.ltb_spec (Z.of_nat a) 0); [lia|].
  by rewrite Nat2Z.id.
Qed.

Lemma slice_bound_succ len a :
  slice_bound len (Z.of_nat a + 1) = S a `min` len.
Proof.
  replace (Z.of_nat a + 1)%Z with (Z.of_nat (S a)) by lia.
  apply slice_bound_nat.
Qed.

Lemma slice_bound_last len : slice_bound len (-1) = len - 1.
Proof. unfold slice_bound. simpl. lia. Qed.

Lemma lookup_drop_take X lo hi i :
  drop lo (take hi X) !! i
  = if decide (lo + i < hi) then X !! (lo + i) else None.
Proof.
  rewrite lookup_drop. case_decide.
  - by apply lookup_take_lt.
  - apply lookup_take_ge. lia.
Qed.

Lemma X_train_take X : X_train X = take train_len X.
Proof.
  unfold X_train, slice. simpl. rewrite slice_bound_nat.
  by rewrite <- (take_take X train_len (length X)), firstn_all.
Qed.

Lemma y_train_take X : y_train X = drop 1 (take (S train_len) X).
Proof.
  unfold y_train, slice. simpl. rewrite slice_bound_succ.
  change (slice_bound (length X) 1) with (slice_bound (length X) (Z.of_nat 1)).
  rewrite slice_bound_nat.
  rewrite <- (take_take X (S train_len) (length X)), firstn_all.
  destruct X as [|x X]; [done|]. simpl. done.
Qed.

Lemma X_test_take X : X_test X = drop train_len (take (length X - 1) X).
Proof.
  unfold X_test, slice. simpl. rewrite slice_bound_nat, slice_bound_last.
  destruct (decide (train_len ≤ length X)) as [Hle|Hgt].
  - by rewrite Nat.min_l.
  - rewrite Nat.min_r by lia.
    rewrite !drop_ge; [done|rewrite length_take; lia..].
Qed.

Lemma y_test_drop X : y_test X = drop (S train_len) X.
Proof.
  unfold y_test, slice. simpl. rewrite slice_bound_succ, firstn_all.
  destruct (decide (S train_len ≤ length X)) as [Hle|Hgt].
  - by rewrite Nat.min_l.
  - rewrite Nat.min_r by lia. rewrite !drop_ge; [done|lia..].
Qed.

(** The training pairs are one-step-ahead pairs: the [i]-th target is the
    point that follows the [i]-th input in the series; and when the series
    is longer than [train_len] there are exactly [train_len] of each. *)
Theorem train_pairs_one_step_ahead X :
  (∀ i x, X_train X !! i = Some x → X !! i = Some x ∧ i < train_len)
  ∧ (∀ i y, y_train X !! i = Some y → X !! (S i) = Some y ∧ i < train_len)
  ∧ (train_len < length X →
       length (X_train X) = train_len ∧ length (y_train X) = train_len).
Proof.
  rewrite X_train_take, y_train_take. split; [|split].
  - intros i x Hx. apply lookup_take_Some in Hx. tauto.
  - intros i y Hy. rewrite lookup_drop_take in Hy.
    case_decide; [|done]. split; [done|lia].
  - intros Hlen. rewrite length_drop, !length_take. lia.
Qed.

(** The test pairs are one-step-ahead pairs as well, they start where the
    training inputs end, and inputs and targets are equally many whatever
    the length of the series: the last point is a target only. *)
Theorem test_pairs_one_step_ahead X :
  length (X_test X) = length X - train_len - 1
  ∧ length (y_test X) = length X - train_len - 1
  ∧ (∀ i, i < length X - train_len - 1 →
       X_test X !! i = X !! (train_len + i)
       ∧ y_test X !! i = X !! (train_len + S i)).
Proof.
  rewrite X_test_take, y_test_drop. split; [|split].
  - rewrite length_drop, length_take. lia.
  - rewrite length_drop. lia.
  - intros i Hi. rewrite lookup_drop_take, lookup_drop.
    rewrite decide_True by lia. split; [done|]. by rewrite Nat.add_succ_r.
Qed.

(** On a series longer than [train_len] nothing is lost and nothing is used
    twice: the inputs of training and test together are the series without
    its last point, the targets together are the series without its first
    point.  The two halves meet in one point, [X[train_len]]: it is the last
    training target and, when test data is left, the first test input. *)
Theorem split_covers_series X :
  train_len < length X →
  X_train X ++ X_test X = take (length X - 1) X
  ∧ y_train X ++ y_test X = drop 1 X
  ∧ last (y_train X) = X !! train_len
  ∧ (train_len + 1 < length X → head (X_test X) = X !! train_len).
Proof.
  intros Hlen. rewrite X_train_take, y_train_take, X_test_take, y_test_drop.
  split; [|split; [|split]].
  - etrans; [|apply (take_drop train_len (take (length X - 1) X))].
    f_equal. rewrite take_take. f_equal. lia.
  - etrans; [|apply (take_drop train_len (drop 1 X))].
    by rewrite take_drop_commute, drop_drop.
  - rewrite last_lookup, length_drop, length_take, lookup_drop_take.
    assert (0 < train_len) by (unfold train_len; lia).
    rewrite decide_True by lia. f_equal; lia.
  - intros Htest. rewrite head_lookup, lookup_drop_take.
    rewrite decide_True by lia. f_equal; lia.
Qed.

(** A series no longer than [train_len] leaves no test data, and its
    training targets are one fewer than its training inputs. *)
Theorem short_series_split X :
  length X ≤ train_len →
  X_train X = X ∧ y_train X = drop 1 X ∧ X_test X = [] ∧ y_test X = []
  ∧ length (y_train X) = length (X_train X) - 1.
Proof.
  intros Hlen. rewrite X_train_take, y_train_take, X_test_take, y_test_drop.
  rewrite (take_ge X train_len), (take_ge X (S train_len)) by lia.
  rewrite (drop_ge (take _ X)) by (rewrite length_take; lia).
  rewrite (drop_ge X (S train_len)) by lia.
  by rewrite length_drop.
Qed.

End Dataset_facts.

(** ** The objective of cell 5 *)

Section Objective_facts.
Context {Params Float : Type}.
Variable suggest_float :
  Trial Params Float → string → QArith_base.Q → QArith_base.Q → bool → Float.
Variable evaluate : Float → Float → nat → Outcome Float.
Variable mean : list Float → Float.
Implicit Types (seeds : list nat) (losses : list Float).

Local Abbreviation loop := (seed_loop evaluate).

(** The loop returns when every seed's evaluation returns, with one more
    loss per seed, in the order of the seeds. *)
Lemma seed_loop_returns seeds sr lr losses ls :
  loop seeds sr lr losses = Returns ls
  ↔ ∃ new, Forall2 (λ seed l, evaluate sr lr seed = Returns l) seeds new
           ∧ ls = losses ++ new.
Proof.
  revert losses. induction seeds as [|seed seeds IH]; intros losses; simpl.
  - split.
    + intros [= <-]. exists []. by rewrite app_nil_r.
    + intros (new & Hall & ->). apply Forall2_nil_inv_l in Hall as ->.
      by rewrite app_nil_r.
  - destruct (evaluate sr lr seed) as [l|e] eqn:Hseed.
    + rewrite IH. split.
      * intros (new & Hall & ->). exists (l :: new).
        split; [by constructor|]. by rewrite <- app_assoc.
      * intros (new & Hall & ->).
        apply Forall2_cons_inv_l in Hall as (l' & new' & Hl & Hall & ->).
        exists new'. split; [done|]. rewrite Hseed in Hl. simplify_eq.
        by rewrite <- app_assoc.
    + split; [done|]. intros (new & Hall & _).
      apply Forall2_cons_inv_l in Hall as (l' & new' & Hl & _).
      congruence.
Qed.

(** The loop raises what the first failing seed raises; the seeds after it
    are not evaluated. *)
Lemma seed_loop_raises seeds sr lr losses e :
  loop seeds sr lr losses = Raises e
  ↔ ∃ before seed after,
      seeds = before ++ seed :: after
      ∧ Forall (λ s, ∃ l, evaluate sr lr s = Returns l) before
      ∧ evaluate sr lr seed = Raises e.
Proof.
  revert losses. induction seeds as [|seed seeds IH]; intros losses; simpl.
  - split; [done|]. intros (before & s & after & Heq & _).
    by destruct before.
  - destruct (evaluate sr lr seed) as [l|e'] eqn:Hseed.
    + rewrite IH. split.
      * intros (before & s & after & -> & Hall & Hs).
        exists (seed :: before), s, after.
        split; [done|]. split; [|done]. constructor; [by exists l|done].
      * intros (before & s & after & Heq & Hall & Hs).
        destruct before as [|s0 before]; simpl in Heq; simplify_eq;
          [congruence|].
        apply Forall_cons in Hall as [_ Hall].
        by exists before, s, after.
    + split.
      * intros [= ->]. by exists [], seed, seeds.
      * intros (before & s & after & Heq & Hall & Hs).
        destruct before as [|s0 before]; simpl in Heq; simplify_eq.
        -- congruence.
        -- apply Forall_cons in Hall as [[l Hl] _]. congruence.
Qed.

(** The objective draws the two parameters of the trial once and evaluates
    them with the seeds 0, 1 and 2, in this order.  It returns exactly when
    the three evaluations return, and then the mean of the three losses; it
    raises exactly when one of them raises, and then what the first failing
    seed raised. *)
Theorem objective_mean_over_seeds trial :
  let sr := suggest_float trial "sr_1" (QArith_base.Qmake 1 100)
              (QArith_base.Qmake 10 1) true in
  let lr := suggest_float trial "lr_1" (QArith_base.Qmake 1 1000)
              (QArith_base.Qmake 1 1) true in
  let objective := objective suggest_float evaluate mean in
  (∀ v, objective trial = Returns v
        ↔ ∃ l0 l1 l2,
            evaluate sr lr 0 = Returns l0 ∧ evaluate sr lr 1 = Returns l1
            ∧ evaluate sr lr 2 = Returns l2 ∧ v = mean [l0; l1; l2])
  ∧ (∀ e, objective trial = Raises e
          ↔ ∃ seed, seed < nb_seeds
              ∧ (∀ s, s < seed → ∃ l, evaluate sr lr s = Returns l)
              ∧ evaluate sr lr seed = Raises e).
Proof.
  intros sr lr obj. unfold obj, objective. fold sr lr. split.
  - intros v.
    destruct (seed_loop evaluate (seq 0 nb_seeds) sr lr []) as [ls|e] eqn:Hl.
    + apply seed_loop_returns in Hl as (new & Hall & ->). simpl in Hall.
      apply Forall2_cons_inv_l in Hall as (l0 & new0 & H0 & Hall & ->).
      apply Forall2_cons_inv_l in Hall as (l1 & new1 & H1 & Hall & ->).
      apply Forall2_cons_inv_l in Hall as (l2 & new2 & H2 & Hall & ->).
      apply Forall2_nil_inv_l in Hall as ->. simpl. split.
      * intros [= <-]. by exists l0, l1, l2.
      * intros (l0' & l1' & l2' & ? & ? & ? & ->). congruence.
    + split; [done|]. intros (l0 & l1 & l2 & H0 & H1 & H2 & _).
      assert (seed_loop evaluate (seq 0 nb_seeds) sr lr []
              = Returns ([] ++ [l0; l1; l2])) as Hret.
      { apply seed_loop_returns. exists [l0; l1; l2]. split; [|done].
        by repeat constructor. }
      congruence.
  - intros e.
    destruct (seed_loop evaluate (seq 0 nb_seeds) sr lr []) as [ls|e'] eqn:Hl.
    + split; [done|]. intros (seed & Hlt & Hbefore & Hseed).
      assert (seed_loop evaluate (seq 0 nb_seeds) sr lr [] = Raises e)
        as Hraise; [|congruence].
      apply seed_loop_raises.
      exists (seq 0 seed), seed, (seq (S seed) (nb_seeds - S seed)).
      split; [|split; [|done]].
      * change (seed :: seq (S seed) (nb_seeds - S seed))
          with (seq seed (S (nb_seeds - S seed))).
        trans (seq 0 (seed + S (nb_seeds - S seed))); [f_equal; lia|].
        by rewrite seq_app.
      * apply Forall_forall. intros s Hs. apply elem_of_seq in Hs.
        apply Hbefore. lia.
    + apply seed_loop_raises in Hl
        as (before & seed & after & Heq & Hall & Hseed).
      assert (before = seq 0 (length before) ∧ seed = length before
              ∧ length before < nb_seeds) as (Hb & -> & Hlt).
      { assert (length (seq 0 nb_seeds) = length (before ++ seed :: after))
          as Hlen by by rewrite Heq.
        rewrite length_seq, length_app in Hlen. simpl in Hlen.
        assert (seq 0 nb_seeds !! length before = Some seed) as Hlook.
        { rewrite Heq. by apply list_lookup_middle. }
        apply lookup_seq in Hlook as [-> _].
        split; [|split; [done|lia]].
        assert (take (length before) (seq 0 nb_seeds) = before) as Htake
          by by rewrite Heq, take_app_length.
        rewrite <- Htake at 1. rewrite take_seq. f_equal. lia. }
      split.
      * intros [= <-]. exists (length before). split; [done|].
        split; [|done]. intros s Hs.
        rewrite Hb in Hall. rewrite Forall_forall in Hall. apply Hall.
        apply elem_of_seq. lia.
      * intros (seed' & Hlt' & Hbefore' & Hseed').
        destruct (Nat.lt_trichotomy seed' (length before)) as [Hc|[Hc|Hc]].
        -- rewrite Hb in Hall. rewrite Forall_forall in Hall.
           destruct (Hall seed') as [l Hl']; [apply elem_of_seq; lia|].
           congruence.
        -- subst seed'. congruence.
        -- destruct (Hbefore' _ Hc) as [l Hl']. congruence.
Qed.

End Objective_facts.

(** ** The driver loop of cell 9 and the data it leaves to cell 10 *)

Section Driver_facts.
Context {Params Value : Type} `{!Score Value}.
Variable objective : Trial Params Value → Outcome Value.
Variable RandomSampler : nat → Params.
Variable clock : nat → Z.
Implicit Types (j : Journal Params Value) (d : Driver Params Value).
Implicit Types (w : Worker Params Value) (sys : System Params Value).

Local Abbreviation Parallel := (Parallel objective RandomSampler).
Local Abbreviation batch := (run_parallel objective RandomSampler clock).
Local Abbreviation driver_loop := (driver_loop objective RandomSampler clock).
Local Abbreviation driver := (driver objective RandomSampler clock).

Lemma run_parallel_returned sched total_trials n_process d d1 :
  batch sched total_trials n_process d = (d1, None) →
  stdout d1
  = stdout d ++ batch_report n_process (elapsed_time clock (clock_reads d) 0)
  ∧ times d1 = times d ++ [elapsed_time clock (clock_reads d) 0]
  ∧ clock_reads d1 = clock_reads d + 2.
Proof.
  unfold run_parallel, elapsed_time, batch_report.
  rewrite !Nat.add_0_r.
  replace (clock_reads d + 1) with (S (clock_reads d)) by lia.
  replace (clock_reads d + 2) with (S (S (clock_reads d))) by lia.
  destruct n_process as [|n]; [done|].
  destruct (first_exception _); [done|]. intros [= <-]. simpl.
  by rewrite <- app_assoc.
Qed.

Lemma run_parallel_raised sched total_trials n_process d d1 e :
  batch sched total_trials n_process d = (d1, Some e) →
  stdout d1 = stdout d ++ [Blank; OptimizationWith n_process]
  ∧ times d1 = times d
  ∧ clock_reads d1 = clock_reads d + 1.
Proof.
  unfold run_parallel.
  replace (clock_reads d + 1) with (S (clock_reads d)) by lia.
  destruct n_process as [|n]; [by intros [= <- _]|].
  destruct (first_exception _); [|done]. by intros [= <- _].
Qed.

Lemma elapsed_shift c i :
  elapsed_time clock c (S i) = elapsed_time clock (c + 2) i.
Proof. unfold elapsed_time. f_equal; f_equal; lia. Qed.

(** A loop that ends without an exception has read the clock twice per
    batch, has appended one elapsed time per batch to [times], in the order
    of the batches, and has printed for every batch the blank line, the
    header with its process count and the line with that same elapsed
    time. *)
Theorem driver_loop_report scheds k ns d d1 :
  driver_loop scheds k ns d = (d1, None) →
  let c := clock_reads d in
  times d1 = times d ++ imap (λ i _, elapsed_time clock c i) ns
  ∧ stdout d1
    = stdout d
      ++ mjoin (imap (λ i n, batch_report n (elapsed_time clock c i)) ns)
  ∧ clock_reads d1 = c + 2 * length ns
  ∧ length (times d1) = length (times d) + length ns.
Proof.
  revert k d. induction ns as [|n ns IH]; intros k d Hrun c; simpl in Hrun.
  - inversion Hrun; subst. unfold c. simpl. rewrite !app_nil_r.
    repeat split; lia.
  - destruct (batch (scheds k) nb_trials n d) as [d2 [e|]] eqn:Hbatch;
      [done|].
    apply run_parallel_returned in Hbatch as (Hout & Htimes & Hreads).
    destruct (IH _ _ Hrun) as (Ht1 & Ho1 & Hr1 & Hl1).
    rewrite Hreads in Ht1, Ho1, Hr1. fold c in Ht1, Ho1, Hr1, Hout, Htimes.
    assert (imap (λ i _, elapsed_time clock c i) (n :: ns)
            = elapsed_time clock c 0
              :: imap (λ (i : nat) (_ : nat), elapsed_time clock (c + 2) i)
                   ns)
      as Himap1.
    { rewrite imap_cons. f_equal. apply imap_ext. intros i x _. simpl.
      apply elapsed_shift. }
    assert (imap (λ i n0, batch_report n0 (elapsed_time clock c i))
              (n :: ns)
            = batch_report n (elapsed_time clock c 0)
              :: imap (λ i n0, batch_report n0 (elapsed_time clock (c + 2) i))
                   ns)
      as Himap2.
    { rewrite imap_cons. f_equal. apply imap_ext. intros i x _. simpl.
      by rewrite elapsed_shift. }
    rewrite Himap1, Himap2.
    split; [by rewrite Ht1, Htimes, <- app_assoc|].
    split; [by rewrite Ho1, Hout, <- app_assoc|].
    split; [simpl; lia|].
    rewrite Hl1, Htimes, length_app. simpl. lia.
Qed.

(** A loop that ends with an exception ran the batches before the failing
    one to their end, and none after it: the state it leaves is the one the
    failing batch left.  That batch printed its header and no elapsed time,
    and [times] holds one entry for each batch before it, fewer than the
    loop has batches. *)
Theorem driver_loop_raises scheds k ns d d1 e :
  driver_loop scheds k ns d = (d1, Some e) →
  ∃ before n after d0,
    ns = before ++ n :: after
    ∧ driver_loop scheds k before d = (d0, None)
    ∧ batch (scheds (k + length before)) nb_trials n d0 = (d1, Some e)
    ∧ stdout d1 = stdout d0 ++ [Blank; OptimizationWith n]
    ∧ times d1 = times d0
    ∧ length (times d1) = length (times d) + length before
    ∧ length (times d1) < length (times d) + length ns
    ∧ clock_reads d1 = clock_reads d + 2 * length before + 1.
Proof.
  revert k d. induction ns as [|n ns IH]; intros k d Hrun; simpl in Hrun;
    [done|].
  destruct (batch (scheds k) nb_trials n d) as [d2 [e'|]] eqn:Hbatch.
  - inversion Hrun; subst. exists [], n, ns, d. simpl.
    rewrite Nat.add_0_r.
    destruct (run_parallel_raised _ _ _ _ _ _ Hbatch) as (Ho & Ht & Hr).
    split; [done|]. split; [done|]. split; [done|]. split; [done|].
    split; [done|]. rewrite Ht, Hr. repeat split; lia.
  - destruct (IH _ _ Hrun)
      as (before & n' & after & d0 & -> & Hloop & Hfail & Ho & Ht & Hl & _
          & Hr).
    destruct (run_parallel_returned _ _ _ _ _ Hbatch) as (Ho2 & Ht2 & Hr2).
    exists (n :: before), n', after, d0. simpl. rewrite Hbatch.
    split; [done|]. split; [done|].
    split; [by replace (k + S (length before))
                 with (S k + length before) by lia|].
    split; [done|]. split; [done|].
    rewrite Ht2, length_app in Hl. simpl in Hl.
    rewrite length_app. simpl. repeat split; lia.
Qed.

(** How many elapsed times a loop records: one per batch if it ends without
    an exception, fewer if it does not. *)
Lemma driver_loop_times_length scheds k ns d :
  let r := driver_loop scheds k ns d in
  match r.2 with
  | None => length (times r.1) = length (times d) + length ns
  | Some _ => length (times r.1) < length (times d) + length ns
  end.
Proof.
  revert k d. induction ns as [|n ns IH]; intros k d; simpl; [lia|].
  destruct (batch (scheds k) nb_trials n d) as [d2 [e|]] eqn:Hbatch; simpl.
  - apply run_parallel_raised in Hbatch as (_ & -> & _). lia.
  - apply run_parallel_returned in Hbatch as (_ & Ht & _).
    specialize (IH (S k) d2). cbv zeta in IH.
    rewrite Ht, length_app in IH. simpl in IH.
    destruct (driver_loop scheds (S k) ns d2).2; lia.
Qed.

(** The bar plot of cell 10 pairs [times] with [n_processes]: the two have
    the same length exactly when the driver loop ended without an exception;
    if it did not, [times] is the shorter one. *)
Theorem times_match_n_processes scheds j :
  let r := driver scheds j in
  (r.2 = None ↔ length (times r.1) = length n_processes)
  ∧ (r.2 ≠ None → length (times r.1) < length n_processes).
Proof.
  intros r.
  pose proof (driver_loop_times_length scheds 0 n_processes
                (mkDriver [] [] 0 j)) as Hlen.
  cbv zeta in Hlen. fold (driver scheds j) in Hlen. fold r in Hlen.
  simpl in Hlen.
  destruct r.2 as [e|]; simpl.
  - split; [|intros _; lia]. split; [done|]. lia.
  - split; [|done]. by split.
Qed.

(** A process count of 0 ends the loop: the batch prints its header, reads
    the clock once and raises [ZeroDivisionError] before any process is
    started, so the journal is left as it was; and a loop whose list of
    process counts holds a 0 never ends without an exception. *)
Theorem zero_processes_raise scheds k ns d :
  (∀ before after d0,
     driver_loop scheds k before d = (d0, None) →
     driver_loop scheds k (before ++ 0 :: after) d
     = (mkDriver (stdout d0 ++ [Blank; OptimizationWith 0]) (times d0)
          (S (clock_reads d0)) (journal_file d0), Some ZeroDivisionError))
  ∧ (0 ∈ ns → ∃ e, (driver_loop scheds k ns d).2 = Some e).
Proof.
  split.
  - intros before after d0 Hrun.
    by rewrite (driver_loop_app objective RandomSampler clock), Hrun.
  - intros Hin. apply list_elem_of_split in Hin as (before & after & ->).
    rewrite (driver_loop_app objective RandomSampler clock).
    destruct (driver_loop scheds k before d) as [d0 [e|]]; simpl; eauto.
Qed.

End Driver_facts.

(** ** Calls of [optimize_study] one after another *)

Section Worker_facts.
Context {Params Value : Type} `{!Score Value}.
Variable objective : Trial Params Value → Outcome Value.
Variable RandomSampler : nat → Params.
Variable clock : nat → Z.
Implicit Types (j : Journal Params Value) (s : Study Params Value).
Implicit Types (t : Trial Params Value) (d : Driver Params Value).
Implicit Types (w : Worker Params Value) (sys : System Params Value).

Local Abbreviation optimize_study := (optimize_study objective RandomSampler).
Local Abbreviation worker_step := (worker_step objective RandomSampler).
Local Abbreviation sys_step := (sys_step objective RandomSampler).
Local Abbreviation Parallel := (Parallel objective RandomSampler).
Local Abbreviation batch := (run_parallel objective RandomSampler clock).
Local Abbreviation driver_loop := (driver_loop objective RandomSampler clock).

(** [tell] leaves a consistent handle consistent. *)
Lemma tell_handle_ok s j t v s1 j1 :
  handle_ok s j → tell s j t v = (inr s1, j1) →
  handle_ok s1 j1 ∧ handle_sampler s1 = handle_sampler s.
Proof.
  intros Hok. unfold tell.
  destruct (find_trial _ _) as [tr|]; [|done].
  destruct (status tr).
  - simpl. intros [= <- <-]. split; [|done].
    apply handle_ok_sync, handle_ok_app. by apply handle_ok_sync.
  - case_decide; [|done]. intros [= <- <-]. split; [|done].
    by apply handle_ok_sync.
  - case_decide; [|done]. intros [= <- <-]. split; [|done].
    by apply handle_ok_sync.
Qed.

(** What [tell] does to the journal depends on the journal, not on the
    handle it is called through. *)
Lemma tell_handle s s' j t v :
  handle_ok s j → handle_ok s' j →
  (tell s j t v).2 = (tell s' j t v).2
  ∧ match (tell s j t v).1, (tell s' j t v).1 with
    | inl e, inl e' => e = e'
    | inr _, inr _ => True
    | _, _ => False
    end.
Proof.
  intros Hok Hok'. unfold tell.
  rewrite (sync_trials _ _ Hok), (sync_trials _ _ Hok').
  destruct (find_trial _ _) as [tr|]; [|done].
  destruct (status tr); simpl; [done|..]; by case_decide.
Qed.

(** The loop does the same through any two consistent handles that draw
    from the same sampler. *)
Lemma trial_loop_handle n s s' j :
  handle_ok s j → handle_ok s' j → handle_sampler s = handle_sampler s' →
  trial_loop objective n s j = trial_loop objective n s' j.
Proof.
  revert s s' j. induction n as [|n IH]; intros s s' j Hok Hok' Hsmp;
    [done|].
  rewrite !trial_loop_S.
  destruct (ask_spec s j Hok) as (s1 & -> & Hok1 & Hsmp1).
  destruct (ask_spec s' j Hok') as (s1' & -> & Hok1' & Hsmp1').
  rewrite <- Hsmp in *. set (trial := new_trial _ _). set (j1 := j ++ _) in *.
  destruct (objective trial) as [v|e]; [|done].
  destruct (tell_handle s1 s1' j1 trial v Hok1 Hok1') as [Hj He].
  destruct (tell s1 j1 trial v) as [[e|s2] j2] eqn:Htell;
    destruct (tell s1' j1 trial v) as [[e'|s2'] j2'] eqn:Htell';
    simpl in Hj, He; try done; subst.
  - done.
  - apply tell_handle_ok in Htell as [Hok2 Hsmp2]; [|done].
    apply tell_handle_ok in Htell' as [Hok2' Hsmp2']; [|done].
    rewrite (IH s2 s2' j2'); [done..|]. congruence.
Qed.

Lemma trial_loop_add a b s s' j :
  handle_ok s j →
  let r1 := trial_loop objective a s j in
  handle_ok s' (run_journal r1) → handle_sampler s' = handle_sampler s →
  trial_loop objective (a + b) s j
  = match run_raised r1 with
    | Some _ => r1
    | None =>
        let r2 := trial_loop objective b s' (run_journal r1) in
        mkRun (run_calls r1 ++ run_calls r2) (run_raised r2) (run_journal r2)
    end.
Proof.
  revert s j. induction a as [|a IH]; intros s j Hok r1 Hok' Hsmp.
  - simpl in *. rewrite (trial_loop_handle b s s' j) by done.
    by destruct (trial_loop objective b s' j).
  - unfold r1 in *. clear r1. change (S a + b) with (S (a + b)).
    rewrite !trial_loop_S in *.
    destruct (ask_spec s j Hok) as (s1 & Hask & Hok1 & Hsmp1).
    rewrite Hask in *. clear Hask.
    set (trial := new_trial _ _) in *. set (j1 := j ++ _) in *.
    destruct (objective trial) as [v|e]; [|done].
    destruct (tell s1 j1 trial v) as [[e|s2] j2] eqn:Htell; [done|].
    apply tell_handle_ok in Htell as [Hok2 Hsmp2]; [|done].
    cbn [run_journal run_raised run_calls] in *.
    rewrite (IH s2 j2 Hok2 Hok') by congruence.
    destruct (run_raised (trial_loop objective a s2 j2)) eqn:Hr; simpl;
      by rewrite ?Hr.
Qed.

(** [optimize_study(a + b)] does what [optimize_study(a)] followed by
    [optimize_study(b)] does, the second call opening the study again on
    the journal the first one left: the same calls in the same order, the
    same journal, the same exception.  If the first call raises, the second
    is never made. *)
Theorem optimize_study_add a b j :
  let r1 := optimize_study a j in
  optimize_study (a + b) j
  = match run_raised r1 with
    | Some _ => r1
    | None =>
        let r2 := optimize_study b (run_journal r1) in
        mkRun (run_calls r1 ++ run_calls r2) (run_raised r2) (run_journal r2)
    end.
Proof.
  intros r1. unfold r1, optimize_study.
  apply trial_loop_add; [apply handle_ok_create..|done].
Qed.

(** ** Batches at the edges of the budget *)

(** A process that has nothing to ask and holds no trial. *)
Local Abbreviation idle w :=
  (calls w = [] ∧ asks_left (pc w) = 0 ∧ held (pc w) = None
   ∧ raised_by w = None).

Lemma worker_step_idle w j :
  idle w → (worker_step w j).2 = j ∧ idle (worker_step w j).1.
Proof.
  intros (Hc & Hl & Hh & Hr). unfold worker_step, raised_by in *.
  destruct (pc w) as [n|s [|n]|s n t| |e] eqn:Hpc; simpl in *;
    try done; rewrite ?Hpc; done.
Qed.

Lemma sys_step_idle j0 pid sys :
  journal sys = j0 ∧ Forall (λ w, idle w) (workers sys) →
  journal (sys_step pid sys) = j0
  ∧ Forall (λ w, idle w) (workers (sys_step pid sys)).
Proof.
  intros [Hj Hall]. unfold sys_step.
  destruct (workers sys !! pid) as [w|] eqn:Hw; [|done].
  destruct (worker_step_idle w (journal sys)) as [Hj1 Hw1];
    [exact (Forall_lookup_1 _ _ _ _ Hall Hw)|].
  destruct (worker_step w (journal sys)) as [w1 j1]. simpl in *.
  split; [congruence|]. by apply Forall_insert.
Qed.

Lemma Parallel_no_budget sched n j :
  let sys := Parallel sched (replicate n 0) j in
  journal sys = j
  ∧ Forall (λ w, pc w = Returned ∧ calls w = []) (workers sys).
Proof.
  intros sys.
  assert (journal sys = j ∧ Forall (λ w, idle w) (workers sys))
    as [Hj Hall].
  { apply (Parallel_inv objective RandomSampler
             (λ sys, journal sys = j ∧ Forall (λ w, idle w) (workers sys))).
    - intros pid sy. apply sys_step_idle.
    - split; [done|]. simpl. apply Forall_fmap, Forall_forall.
      intros m Hm. apply elem_of_replicate in Hm as [-> _]. done. }
  split; [done|].
  pose proof (Parallel_done objective RandomSampler sched (replicate n 0) j)
    as Hdone. fold sys in Hdone.
  apply Forall_lookup. intros q w Hw.
  pose proof (Forall_lookup_1 _ _ _ _ Hdone Hw) as Hd.
  pose proof (Forall_lookup_1 _ _ _ _ Hall Hw) as (Hc & _ & _ & Hr).
  simpl in Hd. unfold raised_by in Hr.
  destruct (pc w); simpl in *; try done; exfalso; lia.
Qed.

(** More processes than trials: the integer division leaves every process
    a budget of 0.  The batch starts its processes, none of them asks for a
    trial or calls the objective, the journal is left as it was, and the
    batch ends without an exception and reports its time like any other. *)
Theorem more_processes_than_trials sched total_trials n_process d :
  total_trials < n_process →
  let sys := Parallel sched
               (replicate n_process (total_trials `div` n_process))
               (journal_file d) in
  let r := batch sched total_trials n_process d in
  length (workers sys) = n_process
  ∧ Forall (λ w, pc w = Returned ∧ calls w = []) (workers sys)
  ∧ r = (mkDriver
           (stdout d
            ++ batch_report n_process (elapsed_time clock (clock_reads d) 0))
           (times d ++ [elapsed_time clock (clock_reads d) 0])
           (clock_reads d + 2) (journal_file d), None).
Proof.
  intros Hlt sys r. unfold r, run_parallel. fold sys.
  assert (sys = Parallel sched (replicate n_process 0) (journal_file d))
    as Hsys by (unfold sys; by rewrite Nat.div_small).
  destruct (Parallel_no_budget sched n_process (journal_file d))
    as [Hj Hall]. rewrite <- Hsys in Hj, Hall.
  split; [by unfold sys; rewrite Parallel_length, length_replicate|].
  split; [done|].
  destruct n_process as [|n]; [lia|].
  assert (first_exception sys = None) as ->.
  { apply first_exception_None. eapply Forall_impl; [exact Hall|].
    intros w [Hpc _]. unfold raised_by. by rewrite Hpc. }
  unfold elapsed_time, batch_report. rewrite Hj, !Nat.add_0_r, <- app_assoc.
  by replace (clock_reads d + 1) with (S (clock_reads d)) by lia;
     replace (clock_reads d + 2) with (S (S (clock_reads d))) by lia.
Qed.

(** One process: the batch is one call of [optimize_study] with the whole
    budget, whatever the schedule says.  The process makes the calls of
    that call, the journal is the one that call leaves, and the batch
    raises what that call raises. *)
Theorem single_process_batch sched total_trials d :
  let r := optimize_study total_trials (journal_file d) in
  let sys := Parallel sched [total_trials] (journal_file d) in
  let b := batch sched total_trials 1 d in
  calls <$> workers sys = [run_calls r]
  ∧ journal sys = run_journal r
  ∧ first_exception sys = run_raised r
  ∧ journal_file b.1 = run_journal r
  ∧ b.2 = run_raised r.
Proof.
  intros r sys b.
  pose proof (Parallel_single objective RandomSampler sched total_trials
                (journal_file d)) as Hsingle.
  cbv zeta in Hsingle. fold r sys in Hsingle.
  assert (first_exception sys = run_raised r) as Hexc.
  { rewrite Hsingle. unfold first_exception, raised_by. simpl.
    by destruct (run_raised r). }
  split; [by rewrite Hsingle|]. split; [by rewrite Hsingle|].
  split; [done|].
  unfold b, run_parallel. rewrite Nat.div_1_r. simpl replicate. fold sys.
  rewrite Hexc. by destruct (run_raised r); rewrite ?Hsingle.
Qed.

End Worker_facts.

(** ** The trials a batch leaves behind *)

Section Batch_facts.
Context {Params Value : Type} `{!Score Value}.
Variable objective : Trial Params Value → Outcome Value.
Variable RandomSampler : nat → Params.
Variable clock : nat → Z.
Implicit Types (j : Journal Params Value) (s : Study Params Value).
Implicit Types (t : Trial Params Value) (d : Driver Params Value).
Implicit Types (w : Worker Params Value) (sys : System Params Value).

Local Abbreviation worker_steps := (worker_steps objective RandomSampler).
Local Abbreviation sys_step := (sys_step objective RandomSampler).
Local Abbreviation Parallel := (Parallel objective RandomSampler).
Local Abbreviation batch := (run_parallel objective RandomSampler clock).
Local Abbreviation driver_loop := (driver_loop objective RandomSampler clock).

(** The trials of a system started on [j0]: a process holds only a trial
    created since, and only such trials were finished since. *)
Local Abbreviation own_trials j0 sys :=
  (n_created j0 ≤ n_created (journal sys)
   ∧ Forall (λ w, ∀ i, held (pc w) = Some i ∨ i ∈ asked_ids (calls w) →
                       n_created j0 ≤ i) (workers sys)
   ∧ ∀ i, i ∈ finished_ids (journal sys) →
          i ∈ finished_ids j0 ∨ n_created j0 ≤ i).

Lemma own_trials_step j0 pid sys :
  sys_inv sys ∧ (own_trials j0 sys) →
  sys_inv (sys_step pid sys) ∧ (own_trials j0 (sys_step pid sys)).
Proof.
  intros (Hinv & Hn & Hheld & Hfin).
  split; [by apply sys_inv_step|].
  destruct (sys_step_cases objective RandomSampler pid sys Hinv)
    as [->|(w & w1 & j1 & Hw & Hstep & ->)]; [done|]. simpl.
  pose proof (Forall_lookup_1 _ _ _ _ Hheld Hw) as Hw0. simpl in Hw0.
  assert (∀ p cs,
            (∀ i, held p = Some i ∨ i ∈ asked_ids cs → n_created j0 ≤ i) →
            Forall (λ w, ∀ i, held (pc w) = Some i ∨ i ∈ asked_ids (calls w) →
                              n_created j0 ≤ i)
              (<[pid:=mkWorker p cs]> (workers sys))) as Hins.
  { intros p cs Hp. by apply Forall_insert. }
  assert (∀ i, i ∈ asked_ids (calls w) → n_created j0 ≤ i) as Hasked
    by (intros i Hi; apply Hw0; by right).
  inversion Hstep as
    [n0 s Hpc _ _|s Hpc|s n0 s1 p Hpc _ _ _|s n0 t e Hpc Hobj
    |s n0 t v s1 Hpc Hobj _ _ _ _|Hpc]; subst.
  - split; [done|]. split; [|done]. apply Hins. simpl.
    intros i [?|?]; [done|by apply Hasked].
  - split; [done|]. split; [|done]. apply Hins. simpl.
    intros i [?|?]; [done|by apply Hasked].
  - split; [|split].
    + unfold n_created in *. rewrite created_ids_snoc, length_app. lia.
    + apply Hins. simpl. intros i [[= <-]|Hi]; [done|].
      rewrite asked_ids_app in Hi.
      apply elem_of_app in Hi as [Hi|Hi%list_elem_of_singleton];
        [by apply Hasked|by subst].
    + intros i. rewrite finished_ids_snoc. simpl. rewrite app_nil_r.
      apply Hfin.
  - split; [done|]. split; [|done]. apply Hins. simpl.
    intros i [?|Hi]; [done|]. rewrite asked_ids_app, app_nil_r in Hi.
    by apply Hasked.
  - rewrite Hpc in Hw0. split; [|split].
    + unfold n_created in *.
      by rewrite created_ids_snoc, created_id_completion, app_nil_r.
    + apply Hins. simpl. intros i [?|Hi]; [done|].
      rewrite asked_ids_app, app_nil_r in Hi. by apply Hasked.
    + intros i. rewrite finished_ids_snoc, finished_id_completion.
      intros [Hi|Hi%list_elem_of_singleton]%elem_of_app; [by apply Hfin|].
      right. subst i. apply Hw0. by left.
  - split; [done|]. split; [|done]. by apply Forall_insert.
Qed.

Lemma Parallel_own_trials sched args j :
  journal_wf j →
  let sys := Parallel sched args j in
  sys_inv sys ∧ (own_trials j sys).
Proof.
  intros Hwf sys.
  apply (Parallel_inv objective RandomSampler
           (λ sys, sys_inv sys ∧ (own_trials j sys))).
  - intros pid sy. apply own_trials_step.
  - split; [by apply sys_inv_spawn|]. simpl.
    split; [done|]. split; [|by left].
    apply Forall_fmap, Forall_true. intros n i [?|Hi]; [done|].
    by apply elem_of_nil in Hi.
Qed.

Lemma prefix_created_ids j j1 i :
  j `prefix_of` j1 → i ∈ created_ids j → i ∈ created_ids j1.
Proof.
  intros [evs ->] Hi. unfold created_ids. rewrite omap_app.
  apply elem_of_app. by left.
Qed.

Lemma prefix_finished_ids j j1 i :
  j `prefix_of` j1 → i ∈ finished_ids j → i ∈ finished_ids j1.
Proof.
  intros [evs ->] Hi. unfold finished_ids. rewrite omap_app.
  apply elem_of_app. by left.
Qed.

(** The trials a journal leaves unfinished stay so in a batch. *)
Lemma Parallel_orphans sched args j i :
  journal_wf j → i ∈ created_ids j → i ∉ finished_ids j →
  let sys := Parallel sched args j in
  journal_wf (journal sys)
  ∧ i ∈ created_ids (journal sys) ∧ (i ∉ finished_ids (journal sys))
  ∧ Forall (λ w, i ∉ asked_ids (calls w)) (workers sys).
Proof.
  intros Hwf Hin Hnot sys.
  destruct (Parallel_own_trials sched args j Hwf)
    as ((Hwf1 & _) & _ & Hown & Hfin). fold sys in Hwf1, Hown, Hfin.
  pose proof Hin as Hlt. apply (wf_created_lt _ _ Hwf) in Hlt.
  split; [done|]. split; [|split].
  - eapply prefix_created_ids; [|done]. apply Parallel_prefix.
  - intros Hi. destruct (Hfin i Hi) as [?|Hge]; [done|]. lia.
  - eapply Forall_impl; [exact Hown|]. intros w Hw Hi. simpl in Hw.
    specialize (Hw i (or_intror Hi)). lia.
Qed.

Lemma run_parallel_orphans sched total_trials n_process d i :
  journal_wf (journal_file d) →
  i ∈ created_ids (journal_file d) → i ∉ finished_ids (journal_file d) →
  let d1 := (batch sched total_trials n_process d).1 in
  journal_wf (journal_file d1)
  ∧ i ∈ created_ids (journal_file d1) ∧ i ∉ finished_ids (journal_file d1).
Proof.
  intros Hwf Hin Hnot. unfold run_parallel.
  destruct n_process as [|n]; [done|].
  destruct (first_exception _); simpl;
    by destruct (Parallel_orphans sched
                   (replicate (S n) (total_trials `div` S n))
                   _ i Hwf Hin Hnot) as (? & ? & ? & _).
Qed.

(** A trial that an earlier run asked and never told, because its process
    raised or was killed, is not taken up again: no process of a later
    batch, and no batch of the driver loop, asks it again or tells it, and
    the study keeps it in status [Running]. *)
Theorem unfinished_trials_stay_running scheds k ns d i :
  journal_wf (journal_file d) →
  i ∈ created_ids (journal_file d) → i ∉ finished_ids (journal_file d) →
  (∀ sched args,
     let sys := Parallel sched args (journal_file d) in
     (i ∉ finished_ids (journal sys))
     ∧ Forall (λ w, i ∉ asked_ids (calls w)) (workers sys))
  ∧ let j1 := journal_file (driver_loop scheds k ns d).1 in
    i ∈ created_ids j1 ∧ (i ∉ finished_ids j1)
    ∧ ∀ t, t ∈ replay j1 → id t = i → status t = Running.
Proof.
  intros Hwf Hin Hnot. split.
  - intros sched args sys.
    by destruct (Parallel_orphans sched args _ i Hwf Hin Hnot)
      as (_ & _ & ? & ?).
  - cbv zeta.
    assert (journal_wf (journal_file (driver_loop scheds k ns d).1)
            ∧ i ∈ created_ids (journal_file (driver_loop scheds k ns d).1)
            ∧ i ∉ finished_ids (journal_file (driver_loop scheds k ns d).1))
      as (Hwf1 & Hin1 & Hnot1).
    { clear -Hwf Hin Hnot. revert k d Hwf Hin Hnot.
      induction ns as [|n ns IH]; intros k d Hwf Hin Hnot; simpl; [done|].
      pose proof (run_parallel_orphans (scheds k) nb_trials n d i
                    Hwf Hin Hnot) as Hb. cbv zeta in Hb.
      destruct (batch (scheds k) nb_trials n d) as [d2 [e|]]; [done|].
      destruct Hb as (? & ? & ?). by apply IH. }
    split; [done|]. split; [done|]. intros t Ht Hid.
    apply (wf_status_running _ _ Hwf1 Ht). by rewrite Hid.
Qed.

Lemma Parallel_run_inv sched args j :
  journal_wf j →
  let sys := Parallel sched args j in
  run_inv sys ∧ asks_cover j sys.
Proof.
  intros Hwf sys.
  apply (Parallel_inv objective RandomSampler
           (λ sys, run_inv sys ∧ asks_cover j sys)).
  - intros pid sy. apply ids_unique_step.
  - by apply ids_unique_spawn.
Qed.

(** A trial created in a batch ends up finished, or it is the one trial
    held by a process that raised. *)
Lemma Parallel_new_trials sched args j i :
  journal_wf j →
  let sys := Parallel sched args j in
  i ∈ created_ids (journal sys) → i ∉ created_ids j →
  i ∈ finished_ids (journal sys)
  ∨ ∃ q w e, workers sys !! q = Some w ∧ pc w = Raised e
             ∧ outstanding (calls w) = [i].
Proof.
  intros Hwf sys Hin Hnew.
  destruct (Parallel_run_inv sched args j Hwf)
    as [(_ & Hcalls & _ & Hfin) Hcover]. fold sys in Hcalls, Hfin, Hcover.
  destruct (Hcover i Hin) as [?|(q & w & Hw & Hasked)]; [done|].
  destruct (Hfin q w i Hw Hasked) as [?|Hout]; [by left|]. right.
  pose proof (Forall_lookup_1 _ _ _ _ Hcalls Hw) as Hok.
  pose proof (Forall_lookup_1 _ _ _ _
                (Parallel_done objective RandomSampler sched args j) Hw)
    as Hdone.
  unfold calls_ok in Hok. simpl in Hdone.
  destruct (pc w) as [n|s n|s n t| |e] eqn:Hpc; simpl in Hdone;
    try (exfalso; lia).
  - destruct Hok as [_ Hnil]. congruence.
  - by exists q, w, e.
Qed.


(** The outcome of a batch that ends without an exception does not depend
    on the schedule: whatever the interleaving of the processes, the
    journal gains the next [sum args] trial ids, in increasing order, and
    each of them is finished, the order of the completion records being
    all that the schedule decides. *)
Theorem batch_result_any_schedule sched args j :
  journal_wf j →
  let sys := Parallel sched args j in
  first_exception sys = None →
  created_ids (journal sys)
  = created_ids j ++ seq (n_created j) (sum_list args)
  ∧ finished_ids (journal sys)
    ≡ₚ finished_ids j ++ seq (n_created j) (sum_list args).
Proof.
  intros Hwf sys Hexc.
  destruct (Parallel_counts objective RandomSampler sched args j Hwf)
    as (_ & _ & _ & Hdone). destruct (Hdone Hexc) as [_ Hsum].
  fold sys in Hsum.
  destruct (Parallel_own_trials sched args j Hwf)
    as ((Hwf1 & _) & _ & _ & Hown). fold sys in Hwf1, Hown.
  assert (created_ids (journal sys)
          = created_ids j ++ seq (n_created j) (sum_list args)) as Hc.
  { rewrite (wf_created_ids _ Hwf1), (wf_created_ids _ Hwf), Hsum.
    by rewrite seq_app. }
  split; [done|].
  apply NoDup_Permutation.
  - by apply wf_NoDup_finished.
  - apply NoDup_app. split; [by apply wf_NoDup_finished|].
    split; [|apply NoDup_seq].
    intros i Hi Hseq. apply elem_of_seq in Hseq.
    apply (wf_finished_created _ _ Hwf), (wf_created_lt _ _ Hwf) in Hi. lia.
  - intros i. rewrite elem_of_app, elem_of_seq. split.
    + intros Hi. destruct (Hown i Hi) as [?|Hge]; [by left|]. right.
      apply (wf_finished_created _ _ Hwf1), (wf_created_lt _ _ Hwf1) in Hi.
      lia.
    + intros [Hi|Hi].
      * eapply prefix_finished_ids; [|done]. apply Parallel_prefix.
      * assert (i ∈ created_ids (journal sys)) as Hin.
        { rewrite Hc. apply elem_of_app. right. by apply elem_of_seq. }
        assert (i ∉ created_ids j) as Hnew.
        { intros Hold. apply (wf_created_lt _ _ Hwf) in Hold. lia. }
        destruct (Parallel_new_trials sched args j i Hwf Hin Hnew)
          as [?|(q & w & e & Hw & Hpc & _)]; [done|].
        apply first_exception_None in Hexc.
        pose proof (Forall_lookup_1 _ _ _ _ Hexc Hw) as Hr.
        unfold raised_by in Hr. simpl in Hr. by rewrite Hpc in Hr.
Qed.

End Batch_facts.

(** ** The name of the journal file (cell 6) *)

(** Two study names never share a journal file: the file name determines
    the study name it was built from. *)
Theorem log_name_of_study_name a b :
  log_name_of a = log_name_of b ↔ a = b.
Proof. split; [apply log_name_of_inj|by intros ->]. Qed.

(** ** The added facts on concrete runs *)

(** A series of 2000 points, as [doublescroll(timesteps, ...)] returns. *)
Lemma split_covers_series_witness :
  let X := seq 0 timesteps in
  X_train X ++ X_test X = seq 0 1999
  ∧ y_train X ++ y_test X = seq 1 1999
  ∧ last (y_train X) = Some 1000
  ∧ head (X_test X) = Some 1000.
Proof.
  intros X.
  assert (train_len < length X) as Hlen
    by (unfold X; rewrite length_seq; unfold train_len, timesteps; lia).
  destruct (split_covers_series X Hlen) as (HX & Hy & Hlast & Hhead).
  split; [exact HX|]. split; [exact Hy|]. split; [exact Hlast|].
  apply Hhead. unfold X. rewrite length_seq. unfold train_len, timesteps. lia.
Defined.

Lemma short_series_split_witness :
  let X := [10; 20; 30] in
  X_train X = [10; 20; 30] ∧ y_train X = [20; 30]
  ∧ X_test X = [] ∧ y_test X = []
  ∧ length (y_train X) = length (X_train X) - 1.
Proof.
  apply (short_series_split [10; 20; 30]).
  unfold train_len. simpl. lia.
Defined.

(** Five processes for three trials. *)
Lemma more_processes_than_trials_witness :
  let d := mkDriver [] [] 0 demo_journal in
  let sys := Parallel steady_objective demo_sampler (demo_scheds 0)
               (replicate 5 (3 `div` 5)) demo_journal in
  length (workers sys) = 5
  ∧ Forall (λ w, pc w = Returned ∧ calls w = []) (workers sys)
  ∧ run_parallel steady_objective demo_sampler demo_clock (demo_scheds 0)
      3 5 d
    = (mkDriver [Blank; OptimizationWith 5; DoneIn 100] [100%Z] 2
         demo_journal, None).
Proof.
  apply (more_processes_than_trials steady_objective demo_sampler demo_clock
           (demo_scheds 0) 3 5 (mkDriver [] [] 0 demo_journal)).
  lia.
Defined.

Lemma driver_loop_report_witness :
  let r := driver_loop steady_objective demo_sampler demo_clock demo_scheds
             0 [1; 2] (mkDriver [] [] 0 []) in
  times r.1 = [100; 100]%Z
  ∧ stdout r.1 = [Blank; OptimizationWith 1; DoneIn 100;
                  Blank; OptimizationWith 2; DoneIn 100]
  ∧ clock_reads r.1 = 4
  ∧ length (times r.1) = 2.
Proof.
  intros r.
  apply (driver_loop_report steady_objective demo_sampler demo_clock
           demo_scheds 0 [1; 2] (mkDriver [] [] 0 []) r.1).
  vm_compute. reflexivity.
Defined.

(** A first batch of forty processes with no trial each, then a batch of
    one process that raises on its third trial; the batch of two processes
    after it is never run. *)
Lemma driver_loop_raises_witness :
  let d := mkDriver [] [] 0 [] : Driver (Z * Z) Loss in
  let r := driver_loop marker_objective demo_sampler demo_clock demo_scheds
             0 [40; 1; 2] d in
  ∃ before n after d0,
    [40; 1; 2] = before ++ n :: after
    ∧ driver_loop marker_objective demo_sampler demo_clock demo_scheds
        0 before d = (d0, None)
    ∧ run_parallel marker_objective demo_sampler demo_clock
        (demo_scheds (0 + length before)) nb_trials n d0
      = (r.1, Some (ObjectiveEvaluationError "marker"))
    ∧ stdout r.1 = stdout d0 ++ [Blank; OptimizationWith n]
    ∧ times r.1 = times d0
    ∧ length (times r.1) = length (times d) + length before
    ∧ length (times r.1) < length (times d) + 3
    ∧ clock_reads r.1 = clock_reads d + 2 * length before + 1.
Proof.
  intros d r.
  apply (driver_loop_raises marker_objective demo_sampler demo_clock
           demo_scheds 0 [40; 1; 2] d r.1
           (ObjectiveEvaluationError "marker")).
  vm_compute. reflexivity.
Defined.

Lemma orphan_journal_wf : journal_wf orphan_journal.
Proof. exact (wf_created demo_journal (demo_sampler 1) demo_journal_wf). Qed.

(** Trial 1 of [orphan_journal] through two batches of the driver loop. *)
Lemma unfinished_trials_stay_running_witness :
  let d := mkDriver [] [] 0 orphan_journal in
  let j1 := journal_file
              (driver_loop steady_objective demo_sampler demo_clock
                 demo_scheds 0 [1; 2] d).1 in
  1 ∈ created_ids j1 ∧ 1 ∉ finished_ids j1.
Proof.
  intros d j1.
  destruct (unfinished_trials_stay_running steady_objective demo_sampler
              demo_clock demo_scheds 0 [1; 2] d 1 orphan_journal_wf)
    as (_ & Hin & Hnot & _).
  - apply (bool_decide_unpack _). vm_compute. exact I.
  - apply (bool_decide_unpack _). vm_compute. exact I.
  - split; assumption.
Defined.


Lemma batch_result_any_schedule_witness :
  let sys := Parallel steady_objective demo_sampler (demo_scheds 0)
               [2; 3; 1] demo_journal in
  created_ids (journal sys) = [0; 1; 2; 3; 4; 5; 6]
  ∧ finished_ids (journal sys) ≡ₚ [0; 1; 2; 3; 4; 5; 6].
Proof.
  apply (batch_result_any_schedule steady_objective demo_sampler
           (demo_scheds 0) [2; 3; 1] demo_journal demo_journal_wf).
  vm_compute. reflexivity.
Defined.

(** The sizes of the four parts of a series of 2000 points. *)
Lemma train_pairs_one_step_ahead_witness :
  let X := seq 0 timesteps in
  length (X_train X) = 1000 ∧ length (y_train X) = 1000.
Proof.
  intros X.
  apply (proj2 (proj2 (train_pairs_one_step_ahead X))).
  unfold X. rewrite length_seq. unfold train_len, timesteps. lia.
Defined.

Lemma test_pairs_one_step_ahead_witness :
  let X := seq 0 timesteps in
  length (X_test X) = 999 ∧ length (y_test X) = 999
  ∧ X_test X !! 998 = Some 1998 ∧ y_test X !! 998 = Some 1999.
Proof.
  intros X.
  destruct (test_pairs_one_step_ahead X) as (HX & Hy & Hpairs).
  split; [exact HX|]. split; [exact Hy|].
  apply (Hpairs 998).
  unfold X. rewrite length_seq. unfold train_len, timesteps. lia.
Defined.

(** Five trials as two and three, the objective raising on the third. *)
Lemma optimize_study_add_witness :
  let r1 := optimize_study marker_objective demo_sampler 2 [] in
  let r2 := optimize_study marker_objective demo_sampler 3 (run_journal r1) in
  optimize_study marker_objective demo_sampler (2 + 3) []
  = mkRun (run_calls r1 ++ run_calls r2) (run_raised r2) (run_journal r2)
  ∧ run_raised r1 = None
  ∧ run_raised r2 = Some (ObjectiveEvaluationError "marker").
Proof.
  intros r1 r2.
  split; [exact (optimize_study_add marker_objective demo_sampler 2 3 [])|].
  split; reflexivity.
Defined.

(** The driver with an objective that raises on its third trial. *)
Lemma times_match_n_processes_witness :
  let r := driver marker_objective demo_sampler demo_clock demo_scheds [] in
  length (times r.1) < length n_processes.
Proof.
  intros r.
  apply (proj2 (times_match_n_processes marker_objective demo_sampler
                  demo_clock demo_scheds [])).
  vm_compute. discriminate.
Defined.

Lemma zero_processes_raise_witness :
  ∃ e, (driver_loop steady_objective demo_sampler demo_clock demo_scheds
          0 [1; 0; 2] (mkDriver [] [] 0 [])).2 = Some e.
Proof.
  apply (proj2 (zero_processes_raise steady_objective demo_sampler demo_clock
                  demo_scheds 0 [1; 0; 2] (mkDriver [] [] 0 []))).
  apply (bool_decide_unpack _). vm_compute. exact I.
Defined.

(** One process, five trials, the objective raising on the third. *)
Lemma single_process_batch_witness :
  let r := optimize_study marker_objective demo_sampler 5 [] in
  let b := run_parallel marker_objective demo_sampler demo_clock
             (demo_scheds 0) 5 1 (mkDriver [] [] 0 []) in
  journal_file b.1 = run_journal r
  ∧ b.2 = Some (ObjectiveEvaluationError "marker").
Proof.
  intros r b.
  destruct (single_process_batch marker_objective demo_sampler demo_clock
              (demo_scheds 0) 5 (mkDriver [] [] 0 []))
    as (_ & _ & _ & Hj & He).
  split; [exact Hj|exact He].
Defined.

(** The objective on the parameters (1, 2): losses 3, 4 and 5, mean 4; and
    on the parameters (7, 0): the evaluation with seed 1 raises. *)
Lemma objective_mean_over_seeds_witness :
  let objective := objective demo_suggest_float demo_evaluate demo_mean in
  objective (new_trial 0 (1, 2)%Z) = Returns 4%Z
  ∧ objective (new_trial 1 (7, 0)%Z)
    = Raises (ObjectiveEvaluationError "diverged").
Proof.
  intros obj. split.
  - apply (proj1 (objective_mean_over_seeds demo_suggest_float demo_evaluate
                    demo_mean (new_trial 0 (1, 2)%Z))).
    exists 3%Z, 4%Z, 5%Z. repeat split; reflexivity.
  - apply (proj2 (objective_mean_over_seeds demo_suggest_float demo_evaluate
                    demo_mean (new_trial 1 (7, 0)%Z))).
    exists 1. split; [unfold nb_seeds; lia|]. split; [|reflexivity].
    intros [|s] Hs; [|exfalso; lia]. by exists 7%Z.
Defined.
